(** * A shallow embedding of cedarscript_ast_parser.py

    The module turns a tree-sitter concrete syntax tree of a CEDARScript
    script into a list of [Command] values, or into a list of [ParseError]
    diagnostics.  The tree-sitter engine itself is external: a script is
    handed to an [engine] (a Rocq function) that yields a root [node] or
    raises.

    Python values are modelled as follows:
    - [str] as a Rocq [string] (its UTF-8 bytes; positions agree with Python
      for ASCII text, which is all the grammar's node types and the examples
      below use);
    - [bytes] (what tree-sitter's [Node.text] returns) as the separate
      constructor [PBytes] of [pyobj], so that mixing [bytes] and [str]
      raises [TypeError] as in Python;
    - [int] as [Z];
    - a raised exception as the left side of [res]. *)

From Stdlib Require Import String Ascii List ZArith Lia Bool.
Import ListNotations.
Open Scope string_scope.
Set Warnings "-register-all".

(* ------------------------------------------------------------------ *)
(** ** Python runtime: exceptions and the error monad *)

Inductive exn :=
| ValueError (msg : string)
| TypeError (msg : string)
| IndexError (msg : string)
| AttributeError (msg : string)
| RecursionError (msg : string).

(** [str(e)]: the description of an exception. *)
Definition exn_str (e : exn) : string :=
  match e with
  | ValueError m | TypeError m | IndexError m
  | AttributeError m | RecursionError m => m
  end.

(** A computation that returns an [A] or raises. *)
Definition res (A : Type) : Type := (exn + A)%type.

Definition ok {A} (a : A) : res A := inr a.
Definition raise {A} (e : exn) : res A := inl e.

Definition bind {A B} (m : res A) (k : A -> res B) : res B :=
  match m with
  | inl e => inl e
  | inr a => k a
  end.

Declare Scope res_scope.
Notation "x <- m ;; k" := (bind m (fun x => k))
  (at level 61, m at next level, right associativity) : res_scope.
Open Scope res_scope.

(** Attribute access on a value that may be [None]. *)
Definition req {A} (attr : string) (o : option A) : res A :=
  match o with
  | Some a => ok a
  | None => raise (AttributeError ("'NoneType' object has no attribute '" ++ attr ++ "'"))
  end.

(** [xs[i]] on a Python list. *)
Definition py_index {A} (xs : list A) (i : nat) : res A :=
  match nth_error xs i with
  | Some a => ok a
  | None => raise (IndexError "list index out of range")
  end.

(* ------------------------------------------------------------------ *)
(** ** Python strings *)

Definition chars (s : string) : list ascii := list_ascii_of_string s.
Definition of_chars (l : list ascii) : string := string_of_list_ascii l.

Definition ascii_in (c : ascii) (set : string) : bool :=
  existsb (Ascii.eqb c) (chars set).

Fixpoint drop_while (p : ascii -> bool) (l : list ascii) : list ascii :=
  match l with
  | [] => []
  | c :: r => if p c then drop_while p r else l
  end.

(** [s.strip(set)]: removes every leading and trailing character of [set]. *)
Definition str_strip (set s : string) : string :=
  let p c := ascii_in c set in
  of_chars (rev (drop_while p (rev (drop_while p (chars s))))).

(** The ASCII whitespace that [s.strip()] removes. *)
Definition whitespace : string :=
  of_chars [" "%char; "009"%char; "010"%char; "011"%char; "012"%char; "013"%char].

Fixpoint starts_with (p s : list ascii) : bool :=
  match p, s with
  | [], _ => true
  | a :: p', b :: s' => Ascii.eqb a b && starts_with p' s'
  | _ :: _, [] => false
  end.

Definition str_startswith (pre s : string) : bool := starts_with (chars pre) (chars s).
Definition str_endswith (suf s : string) : bool :=
  starts_with (rev (chars suf)) (rev (chars s)).

(** [s.removeprefix(pre)] and [s.removesuffix(suf)]. *)
Definition str_removeprefix (pre s : string) : string :=
  if str_startswith pre s then of_chars (skipn (length (chars pre)) (chars s)) else s.

Definition str_removesuffix (suf s : string) : string :=
  if str_endswith suf s
  then of_chars (rev (skipn (length (chars suf)) (rev (chars s)))) else s.

(** [s.replace(old, new)] for a non-empty [old]: left to right, without
    overlaps.  [fuel] is the length of [s]. *)
Fixpoint replace_aux (fuel : nat) (old new : list ascii) (s : list ascii) : list ascii :=
  match fuel with
  | O => s
  | S fuel' =>
      match s with
      | [] => []
      | c :: r =>
          if starts_with old s
          then new ++ replace_aux fuel' old new (skipn (length old) s)
          else c :: replace_aux fuel' old new r
      end
  end.

Definition str_replace (old new s : string) : string :=
  match chars old with
  | [] => (* an empty [old] matches around every character *)
      new ++ of_chars (concat (map (fun c => c :: chars new) (chars s)))
  | _ => of_chars (replace_aux (length (chars s)) (chars old) (chars new) (chars s))
  end.

(** [str.casefold()] on the ASCII node-type names of the grammar. *)
Definition lower_ascii (c : ascii) : ascii :=
  let n := nat_of_ascii c in
  if Nat.leb 65 n && Nat.leb n 90 then ascii_of_nat (n + 32) else c.

Definition casefold (s : string) : string := of_chars (map lower_ascii (chars s)).

(** [sep.join(xs)]. *)
Fixpoint str_join (sep : string) (xs : list string) : string :=
  match xs with
  | [] => EmptyString
  | [x] => x
  | x :: r => x ++ sep ++ str_join sep r
  end.

(** [' ' * n]. *)
Definition str_spaces (n : Z) : string := of_chars (repeat " "%char (Z.to_nat n)).

(** [str(n)] for an [int]. *)
Fixpoint digits_rev (fuel n : nat) : list ascii :=
  match fuel with
  | O => []
  | S f =>
      let d := ascii_of_nat (48 + n mod 10) in
      if Nat.ltb n 10 then [d] else d :: digits_rev f (n / 10)
  end.

Definition nat_str (n : nat) : string := of_chars (rev (digits_rev (S n) n)).

Definition int_str (z : Z) : string :=
  if (z <? 0)%Z then "-" ++ nat_str (Z.to_nat (- z)) else nat_str (Z.to_nat z).

(** [int(s)] for base 10: surrounding whitespace, an optional sign and at
    least one digit (digit-group underscores are not modelled). *)
Definition digit_val (c : ascii) : option nat :=
  let n := nat_of_ascii c in
  if Nat.leb 48 n && Nat.leb n 57 then Some (n - 48) else None.

Fixpoint digits_val (acc : Z) (l : list ascii) : option Z :=
  match l with
  | [] => Some acc
  | c :: r =>
      match digit_val c with
      | Some d => digits_val (10 * acc + Z.of_nat d)%Z r
      | None => None
      end
  end.

Definition parse_int_text (s : string) : option Z :=
  match chars (str_strip whitespace s) with
  | "-"%char :: (_ :: _) as r => option_map Z.opp (digits_val 0 r)
  | "+"%char :: (_ :: _) as r => digits_val 0 r
  | (_ :: _) as r => digits_val 0 r
  | [] => None
  end.

(* ------------------------------------------------------------------ *)
(** ** Python objects that are either [str] or [bytes] *)

Inductive pyobj :=
| PStr (s : string)
| PBytes (b : string).

(** [obj.decode('utf8')] on [bytes] (the engine hands out valid UTF-8). *)
Definition py_decode (o : pyobj) : res string :=
  match o with
  | PBytes b => ok b
  | PStr _ => raise (AttributeError "'str' object has no attribute 'decode'")
  end.

(** [obj.strip(arg)]: [bytes.strip] wants a bytes-like argument and
    [str.strip] a [str]. *)
Definition py_strip (o arg : pyobj) : res pyobj :=
  match o, arg with
  | PStr s, PStr set => ok (PStr (str_strip set s))
  | PBytes b, PBytes set => ok (PBytes (str_strip set b))
  | PBytes _, PStr _ => raise (TypeError "a bytes-like object is required, not 'str'")
  | PStr _, PBytes _ => raise (TypeError "strip arg must be None or str")
  end.

(** [int(obj)]: accepts both [str] and [bytes]. *)
Definition py_int (o : pyobj) : res Z :=
  let s := match o with PStr s | PBytes s => s end in
  match parse_int_text s with
  | Some z => ok z
  | None => raise (ValueError ("invalid literal for int() with base 10: '" ++ s ++ "'"))
  end.

(** [repr] of printable [bytes]: [b'...'], switching to double quotes
    when the content has a single quote and no double quote. *)
Definition bytes_repr (b : string) : string :=
  let dq := ascii_in "034"%char b in
  let sq := ascii_in "'"%char b in
  let q := if sq && negb dq then String "034"%char EmptyString else "'" in
  let esc c :=
    if Ascii.eqb c "\"%char then "\\"
    else if Ascii.eqb c "'"%char && negb (sq && negb dq) then "\'"
    else String c EmptyString in
  "b" ++ q ++ String.concat EmptyString (map esc (chars b)) ++ q.

(** [f"{obj}"]: a [str] is inserted as it is, [bytes] by their [repr]. *)
Definition py_format (o : pyobj) : string :=
  match o with
  | PStr s => s
  | PBytes b => bytes_repr b
  end.

(* ------------------------------------------------------------------ *)
(** ** The tree-sitter node interface (the engine's output) *)

(** A node as the engine exposes it: [type], [is_named], [has_error],
    [start_point] (row, column), the byte range, [text] (a [bytes] object)
    and the ordered [children]. *)
Inductive node := mkNode {
  ntype : string;
  is_named : bool;
  has_error : bool;
  start_row : nat;
  start_col : nat;
  start_byte : nat;
  end_byte : nat;
  ntext : string;
  children : list node
}.

Definition named_children (n : node) : list node := filter is_named (children n).

(** [node.text]: tree-sitter returns [bytes]. *)
Definition node_text (n : node) : pyobj := PBytes (ntext n).

(** [node.child(i)]: [None] out of range. *)
Definition child (n : node) (i : nat) : option node := nth_error (children n) i.

(** [find_first_by_type(nodes, t)] with one type, and with a list of types. *)
Definition find_first_by_type (nodes : list node) (t : string) : option node :=
  find (fun c => String.eqb (ntype c) t) nodes.

Definition find_first_by_types (nodes : list node) (ts : list string) : option node :=
  find (fun c => existsb (String.eqb (ntype c)) ts) nodes.

(* ------------------------------------------------------------------ *)
(** ** Region / location model *)

Inductive BodyOrWhole := BODY | WHOLE.

Definition body_or_whole_value (b : BodyOrWhole) : string :=
  match b with BODY => "body" | WHOLE => "whole" end.

(** [MarkerType = StrEnum('MarkerType', 'LINE VARIABLE FUNCTION CLASS')]:
    with [StrEnum] the functional API gives each member its lower-cased
    name as value. *)
Inductive MarkerType := LINE | VARIABLE | FUNCTION | CLASS.

Definition marker_type_value (t : MarkerType) : string :=
  match t with
  | LINE => "line" | VARIABLE => "variable"
  | FUNCTION => "function" | CLASS => "class"
  end.

(** [MarkerType(s)]: lookup by value. *)
Definition MarkerType_of (s : string) : res MarkerType :=
  match find (fun t => String.eqb (marker_type_value t) s)
              [LINE; VARIABLE; FUNCTION; CLASS] with
  | Some t => ok t
  | None => raise (ValueError ("'" ++ s ++ "' is not a valid MarkerType"))
  end.

Inductive RelativePositionType := AT | BEFORE | AFTER | INSIDE.

Definition relpos_value (q : RelativePositionType) : string :=
  match q with
  | AT => "at" | BEFORE => "before" | AFTER => "after" | INSIDE => "inside"
  end.

Definition RelativePositionType_of (s : string) : res RelativePositionType :=
  match find (fun q => String.eqb (relpos_value q) s) [AT; BEFORE; AFTER; INSIDE] with
  | Some q => ok q
  | None => raise (ValueError ("'" ++ s ++ "' is not a valid RelativePositionType"))
  end.

Record Marker := mkMarker {
  mtype : MarkerType;
  mvalue : string;
  moffset : option Z
}.

(** [Marker.__str__]. *)
Definition marker_str (m : Marker) : string :=
  let result := marker_type_value (mtype m) ++ " '" ++ mvalue m ++ "'" in
  match moffset m with
  | Some o => result ++ " at offset " ++ int_str o
  | None => result
  end.

(** [RelativeMarker.__str__]: a [RelativeMarker] is a [Marker] plus its
    [qualifier]. *)
Definition relative_marker_str (q : RelativePositionType) (m : Marker) : string :=
  let result := marker_str m in
  match q with
  | AT => result
  | _ => result ++ " (" ++ relpos_value q ++ ")"
  end.

(** The values [parse_region] can return: a [BodyOrWhole] member, a
    [Marker], a [RelativeMarker] or a [Segment] (whose two ends are again
    whatever [parse_region] returned for them). *)
Inductive Region :=
| RBodyOrWhole (b : BodyOrWhole)
| RMarker (m : Marker)
| RRelativeMarker (q : RelativePositionType) (m : Marker)
| RSegment (start end_ : Region).

Record WhereClause := mkWhere { wfield : string; woperator : string; wvalue : string }.

Record SingleFileClause := mkSingleFile { file_path : string }.

(** [SingleFileClause] or its subclass [IdentifierFromFile]. *)
Inductive FileOrIdentifierWithin :=
| TSingleFile (c : SingleFileClause)
| TIdentifierFromFile (path : string) (where_clause : WhereClause)
    (identifier_type : string) (offset : option Z).

Definition target_file_path (t : FileOrIdentifierWithin) : string :=
  match t with
  | TSingleFile c => file_path c
  | TIdentifierFromFile p _ _ _ => p
  end.

Inductive EditingAction :=
| ReplaceClause (region : Region)
| DeleteClause (region : Region)
| InsertClause (insert_position : Region)
| MoveClause (region : Region) (insert_position : Region)
    (to_other_file : option SingleFileClause) (relative_indentation : option Z).

Inductive Command :=
| CreateCommand (type : string) (path : string) (content : string)
| RmFileCommand (type : string) (path : string)
| MvFileCommand (type : string) (path : string) (target_path : string)
| UpdateCommand (type : string) (target : FileOrIdentifierWithin)
    (action : EditingAction) (content : option string).

(** The elements of a [files_to_change] tuple: the annotation says [str],
    but [UpdateCommand] appends whatever [to_other_file] holds. *)
Inductive FileEntry :=
| FStr (s : string)
| FSingleFileClause (c : SingleFileClause).

(** [files_to_change] of each command class.  In [UpdateCommand] a
    [SingleFileClause] instance is always truthy (a dataclass defines no
    [__bool__] or [__len__]). *)
Definition files_to_change (c : Command) : list FileEntry :=
  match c with
  | CreateCommand _ p _ | RmFileCommand _ p => [FStr p]
  | MvFileCommand _ p t => [FStr p] ++ [FStr t]
  | UpdateCommand _ tgt act _ =>
      let result := [FStr (target_file_path tgt)] in
      match act with
      | MoveClause _ _ (Some target_file) _ => result ++ [FSingleFileClause target_file]
      | _ => result
      end
  end.

Record ParseError := mkParseError {
  command_ordinal : Z;
  message : string;
  line : Z;
  column : Z;
  suggestion : string
}.

(* ------------------------------------------------------------------ *)
(** ** String / content decoder *)

Definition dq : ascii := "034"%char.
Definition newline : string := String "010"%char EmptyString.

(** The strip set of [parse_string] (both quote characters) and its patterns. *)
Definition quote_chars : string := String dq "'".
Definition escaped_dq : string := String "\"%char (String dq EmptyString).
Definition triple_sq : string := "'''".
Definition triple_dq : string := String dq (String dq (String dq EmptyString)).

(** [parse_string(node)]; the argument may be [None] at some call sites. *)
Definition parse_string (o : option node) : res string :=
  n0 <- req "type" o ;;
  n <- (if String.eqb (casefold (ntype n0)) "string"
        then py_index (named_children n0) 0 else ok n0) ;;
  text <- py_decode (node_text n) ;;
  let t := casefold (ntype n) in
  ok (if String.eqb t "raw_string" then str_strip quote_chars text
      else if String.eqb t "single_quoted_string" then
        str_strip quote_chars
          (str_replace escaped_dq (String dq EmptyString) (str_replace "\'" "'" text))
      else if String.eqb t "multi_line_string" then
        str_removesuffix triple_dq (str_removesuffix triple_sq
          (str_removeprefix triple_dq (str_removeprefix triple_sq text)))
      else text).

(** [parse_multiline_string(node)]. *)
Definition parse_multiline_string (n : node) : res string :=
  text <- py_decode (node_text n) ;;
  ok (str_strip triple_dq (str_strip triple_sq text)).

(** The loop of [parse_relative_indent_block]: [lines] is the list being
    appended to. *)
Fixpoint relative_indent_lines (lines : list string) (line_nodes : list node)
  : res (list string) :=
  match line_nodes with
  | [] => ok lines
  | line_node :: rest =>
      if String.eqb (ntype line_node) "relative_indent_line" then
        let indent_prefix := find_first_by_type (children line_node) "relative_indent_prefix" in
        let content := find_first_by_type (children line_node) "match_any_char" in
        match indent_prefix, content with
        | Some p, Some c =>
            stripped <- py_strip (node_text p) (PStr "@:") ;;
            indent <- py_int stripped ;;
            relative_indent_lines
              (lines ++ [str_spaces (4 * indent) ++ py_format (node_text c)]) rest
        | _, _ => relative_indent_lines lines rest
        end
      else relative_indent_lines lines rest
  end.

Definition parse_relative_indent_block (n : node) : res string :=
  lines <- relative_indent_lines [] (children n) ;;
  ok (str_join newline lines).

(** [parse_content_clause(node)].  The found child has one of the three
    types, so the final [elif] always applies. *)
Definition parse_content_clause (o : option node) : res string :=
  n <- match o with
       | Some n => if String.eqb (ntype n) "content_clause" then ok n
                   else raise (ValueError "Expected content_clause node")
       | None => raise (ValueError "Expected content_clause node")
       end ;;
  content_node <-
    match find_first_by_types (children n)
            ["string"; "relative_indent_block"; "multiline_string"] with
    | Some c => ok c
    | None => raise (ValueError "No content found in content_clause")
    end ;;
  if String.eqb (ntype content_node) "string" then parse_string (Some content_node)
  else if String.eqb (ntype content_node) "relative_indent_block"
  then parse_relative_indent_block content_node
  else parse_multiline_string content_node.

Definition parse_to_value_clause (o : option node) : res string :=
  n <- match o with
       | Some n => if String.eqb (ntype n) "to_value_clause" then ok n
                   else raise (ValueError "Expected to_value_clause node")
       | None => raise (ValueError "Expected to_value_clause node")
       end ;;
  match find_first_by_type (children n) "string" with
  | Some v => parse_string (Some v)
  | None => raise (ValueError "No value found in to_value_clause")
  end.

Definition parse_singlefile_clause (o : option node) : res SingleFileClause :=
  n <- match o with
       | Some n => if String.eqb (ntype n) "singlefile_clause" then ok n
                   else raise (ValueError "Expected singlefile_clause node")
       | None => raise (ValueError "Expected singlefile_clause node")
       end ;;
  match find_first_by_type (children n) "string" with
  | Some p => s <- parse_string (Some p) ;; ok (mkSingleFile s)
  | None => raise (ValueError "No file_path found in singlefile_clause")
  end.

(** [parse_offset_clause] and [parse_relative_indentation] (same body). *)
Definition parse_offset_clause (o : option node) : res (option Z) :=
  match o with
  | None => ok None
  | Some n =>
      num <- req "text" (find_first_by_type (children n) "number") ;;
      z <- py_int (node_text num) ;;
      ok (Some z)
  end.

Definition parse_relative_indentation (o : option node) : res (option Z) :=
  match o with
  | None => ok None
  | Some n =>
      num <- req "text" (find_first_by_type (children n) "number") ;;
      z <- py_int (node_text num) ;;
      ok (Some z)
  end.

(* ------------------------------------------------------------------ *)
(** ** Tree walker / command builder *)

Definition parse_marker (n0 : node) : res Marker :=
  n <- (if String.eqb (casefold (ntype n0)) "marker"
        then py_index (named_children n0) 0 else ok n0) ;;
  first <- py_index (children n) 0 ;;
  let marker_type := ntype first in
  value <- parse_string (find_first_by_type (named_children n) "string") ;;
  offset <- parse_offset_clause (find_first_by_type (named_children n) "offset_clause") ;;
  t <- MarkerType_of (casefold marker_type) ;;
  ok (mkMarker t value offset).

(** The wrapper-unwrapping [match] at the head of [parse_region]: returns
    the recorded qualifier and the node reached. *)
Definition unwrap_region (n : node) : res (option RelativePositionType * node) :=
  let t := casefold (ntype n) in
  if String.eqb t "marker_or_segment" then
    n1 <- py_index (named_children n) 0 ;; ok (None, n1)
  else if String.eqb t "region_field" then
    n1 <- py_index (children n) 0 ;;
    if String.eqb (casefold (ntype n1)) "marker_or_segment"
    then n2 <- py_index (named_children n1) 0 ;; ok (None, n2)
    else ok (None, n1)
  else if String.eqb t "relpos_bai" then
    n1 <- py_index (named_children n) 0 ;;
    c0 <- req "type" (child n1 0) ;;
    q <- RelativePositionType_of (casefold (ntype c0)) ;;
    n2 <- py_index (named_children n1) 0 ;;
    ok (Some q, n2)
  else if String.eqb t "relpos_beforeafter" then
    c0 <- req "type" (child n 0) ;;
    q <- RelativePositionType_of (casefold (ntype c0)) ;;
    n1 <- py_index (named_children n) 0 ;;
    ok (Some q, n1)
  else if String.eqb t "relpos_at" then
    n1 <- py_index (named_children n) 0 ;; ok (None, n1)
  else ok (None, n).

(** [RelativeMarker(qualifier=q, type=result.type, value=result.value,
    offset=result.offset)]: only (relative) markers have those attributes. *)
Definition requalify (q : RelativePositionType) (r : Region) : res Region :=
  match r with
  | RMarker m | RRelativeMarker _ m => ok (RRelativeMarker q m)
  | RBodyOrWhole _ => raise (AttributeError "'BodyOrWhole' object has no attribute 'type'")
  | RSegment _ _ => raise (AttributeError "'Segment' object has no attribute 'type'")
  end.

(** [parse_segment], given the region parser for its two ends. *)
Definition parse_segment (parse_region : node -> res Region) (n : node) : res Region :=
  s <- req "children" (find_first_by_type (named_children n) "relpos_segment_start") ;;
  relpos_start <- py_index (children s) 1 ;;
  e <- req "children" (find_first_by_type (named_children n) "relpos_segment_end") ;;
  relpos_end <- py_index (children e) 1 ;;
  start <- parse_region relpos_start ;;
  end_ <- parse_region relpos_end ;;
  ok (RSegment start end_).

(** [parse_region].  Python bounds the depth of the recursion through
    segments; [depth] is that bound. *)
Fixpoint parse_region_depth (depth : nat) (n0 : node) : res Region :=
  match depth with
  | O => raise (RecursionError "maximum recursion depth exceeded")
  | S depth' =>
      qn <- unwrap_region n0 ;;
      let '(qualifier, n) := qn in
      let t := casefold (ntype n) in
      result <-
        (if String.eqb t "marker" || String.eqb t "linemarker" then
           m <- parse_marker n ;; ok (RMarker m)
         else if String.eqb t "segment" then parse_segment (parse_region_depth depth') n
         else if String.eqb t (body_or_whole_value BODY) then ok (RBodyOrWhole BODY)
         else if String.eqb t (body_or_whole_value WHOLE) then ok (RBodyOrWhole WHOLE)
         else raise (ValueError ("[parse_region] Unexpected node type: " ++ t))) ;;
      match qualifier with
      | Some q => requalify q result
      | None => ok result
      end
  end.

Definition recursion_limit : nat := 1000.

Definition parse_region (n : node) : res Region := parse_region_depth recursion_limit n.

(** [parse_insert_clause(node)]; the node may be [None]. *)
Definition parse_insert_clause (o : option node) : res EditingAction :=
  n <- req "children" o ;;
  relative_marker <- req "type" (find_first_by_type (children n) "relpos_bai") ;;
  r <- parse_region relative_marker ;;
  ok (InsertClause r).

(** [clause.insert_position]. *)
Definition get_insert_position (a : EditingAction) : res Region :=
  match a with
  | InsertClause p | MoveClause _ p _ _ => ok p
  | ReplaceClause _ => raise (AttributeError "'ReplaceClause' object has no attribute 'insert_position'")
  | DeleteClause _ => raise (AttributeError "'DeleteClause' object has no attribute 'insert_position'")
  end.

Definition region_clause_types : list string := ["marker_or_segment"; "region_field"].

Definition parse_delete_clause (n : node) : res EditingAction :=
  rn <- req "type" (find_first_by_types (named_children n) region_clause_types) ;;
  region <- parse_region rn ;;
  ok (DeleteClause region).

Definition parse_move_clause (n : node) : res EditingAction :=
  sn <- req "type" (find_first_by_types (named_children n) region_clause_types) ;;
  source <- parse_region sn ;;
  destination <- req "named_children"
                   (find_first_by_type (named_children n) "update_move_clause_destination") ;;
  insert_clause <- parse_insert_clause
                     (find_first_by_type (named_children destination) "insert_clause") ;;
  rel_indent <- parse_relative_indentation
                  (find_first_by_type (named_children destination) "relative_indentation") ;;
  insert_position <- get_insert_position insert_clause ;;
  ok (MoveClause source insert_position None rel_indent).

Definition parse_replace_clause (n : node) : res EditingAction :=
  rn <- req "type" (find_first_by_types (named_children n) region_clause_types) ;;
  region <- parse_region rn ;;
  ok (ReplaceClause region).

Definition action_types : list string :=
  ["update_delete_region_clause"; "update_delete_mos_clause"; "update_move_region_clause";
   "update_move_mos_clause"; "insert_clause"; "replace_mos_clause"; "replace_region_clause"].

Definition parse_update_action (n : node) : res EditingAction :=
  a <- match find_first_by_types (named_children n) action_types with
       | Some a => ok a
       | None => raise (ValueError "No valid action found in update command")
       end ;;
  let t := ntype a in
  if String.eqb t "update_delete_mos_clause" || String.eqb t "update_delete_region_clause"
  then parse_delete_clause a
  else if String.eqb t "update_move_mos_clause" || String.eqb t "update_move_region_clause"
  then parse_move_clause a
  else if String.eqb t "insert_clause" then parse_insert_clause (Some a)
  else if String.eqb t "replace_mos_clause" || String.eqb t "replace_region_clause"
  then parse_replace_clause a
  else raise (ValueError ("[parse_update_action] Invalid: " ++ t)).

Definition parse_where_clause (n : node) : res WhereClause :=
  condition <- match find_first_by_type (children n) "condition" with
               | Some c => ok c
               | None => raise (ValueError "No condition found in where clause")
               end ;;
  field <- parse_string (find_first_by_type (children condition) "conditions_left") ;;
  operator <- parse_string (find_first_by_type (children condition) "operator") ;;
  value <- parse_string (find_first_by_type (children condition) "string") ;;
  ok (mkWhere field operator value).

Definition parse_identifier_from_file (n : node) : res FileOrIdentifierWithin :=
  first <- py_index (children n) 0 ;;
  let identifier_type := ntype first in
  let file_clause := find_first_by_type (named_children n) "singlefile_clause" in
  let where_clause := find_first_by_type (named_children n) "where_clause" in
  let offset_clause := find_first_by_type (named_children n) "offset_clause" in
  match file_clause, where_clause with
  | Some fc, Some wc =>
      fp <- parse_singlefile_clause (Some fc) ;;
      where_ <- parse_where_clause wc ;;
      offset <- parse_offset_clause offset_clause ;;
      ok (TIdentifierFromFile (file_path fp) where_ identifier_type offset)
  | _, _ => raise (ValueError "Invalid identifier_from_file clause")
  end.

Definition parse_update_target (n : node) : res FileOrIdentifierWithin :=
  target_node <-
    match find_first_by_types (named_children n) ["singlefile_clause"; "identifier_from_file"] with
    | Some t => ok t
    | None => raise (ValueError "No valid target found in update command")
    end ;;
  let t := casefold (ntype target_node) in
  if String.eqb t "singlefile_clause" then
    c <- parse_singlefile_clause (Some target_node) ;; ok (TSingleFile c)
  else if String.eqb t "identifier_from_file" then parse_identifier_from_file target_node
  else raise (ValueError ("[parse_update_target] Invalid target: " ++ t)).

Definition parse_update_content (n : node) : res (option string) :=
  match find_first_by_type (children n) "content_clause" with
  | Some c => s <- parse_content_clause (Some c) ;; ok (Some s)
  | None => ok None
  end.

Definition parse_create_command (n : node) : res Command :=
  fp <- parse_singlefile_clause (find_first_by_type (children n) "singlefile_clause") ;;
  content <- parse_content_clause (find_first_by_type (children n) "content_clause") ;;
  ok (CreateCommand "create" (file_path fp) content).

Definition parse_rm_file_command (n : node) : res Command :=
  fp <- parse_singlefile_clause (find_first_by_type (children n) "singlefile_clause") ;;
  ok (RmFileCommand "rm_file" (file_path fp)).

Definition parse_mv_file_command (n : node) : res Command :=
  fp <- parse_singlefile_clause (find_first_by_type (children n) "singlefile_clause") ;;
  target_path <- parse_to_value_clause (find_first_by_type (children n) "to_value_clause") ;;
  ok (MvFileCommand "mv_file" (file_path fp) target_path).

Definition parse_update_command (n : node) : res Command :=
  target <- parse_update_target n ;;
  action <- parse_update_action n ;;
  content <- parse_update_content n ;;
  ok (UpdateCommand "update" target action content).

(** [parse_command]: the [match] compares [node.type] exactly. *)
Definition parse_command (n : node) : res Command :=
  let t := ntype n in
  if String.eqb t "create_command" then parse_create_command n
  else if String.eqb t "rm_file_command" then parse_rm_file_command n
  else if String.eqb t "mv_file_command" then parse_mv_file_command n
  else if String.eqb t "update_command" then parse_update_command n
  else raise (ValueError ("Unexpected command type: " ++ t)).

(* ------------------------------------------------------------------ *)
(** ** Diagnostic collector *)

(** [_generate_suggestion]: keyed off the type of the error node's parent. *)
Definition generate_suggestion (parent : option node) : string :=
  match parent with
  | None => "Please check the syntax near the error."
  | Some p =>
      let parent_type := ntype p in
      if String.eqb parent_type "content_clause" then
        "Ensure the content block is properly enclosed with matching quotes ('''"
          ++ " or " ++ String dq (String dq EmptyString) ++ ")."
      else if String.eqb parent_type "update_command" then
        "An action clause ('REPLACE', 'INSERT', 'DELETE') is expected in the 'UPDATE' command."
      else if String.eqb parent_type "create_command" then
        "The 'CREATE' command may be missing 'WITH CONTENT' or has a syntax issue."
      else "Please check the syntax near the error (parent node: " ++ parent_type ++ ")"
  end.

(** [code_text[a:b]]. *)
Definition str_slice (s : string) (a b : nat) : string := substring a (b - a) s.

(** [_collect_parse_errors(node, code_text, command_ordinal)]; [parent] is
    [node.parent]. *)
Fixpoint collect_parse_errors (parent : option node) (n : node) (code_text : string)
  (ord : Z) : list ParseError :=
  if has_error n then
    let here :=
      if String.eqb (ntype n) "ERROR" then
        let line := (Z.of_nat (start_row n) + 1)%Z in
        let column := (Z.of_nat (start_col n) + 1)%Z in
        let error_text := str_strip whitespace (str_slice code_text (start_byte n) (end_byte n)) in
        let msg := "Syntax error near '" ++ error_text ++ "' at line " ++ int_str line
                   ++ ", column " ++ int_str column ++ "." in
        [mkParseError ord msg line column (generate_suggestion parent)]
      else [] in
    here ++ concat (map (fun c => collect_parse_errors (Some n) c code_text ord) (children n))
  else [].

(* ------------------------------------------------------------------ *)
(** ** Parser facade *)

(** The locals of [parse_script] that survive an exception: what has been
    printed, and [command_ordinal] (read by the [except] handler). *)
Record facade_state := mkFacadeState {
  stdout : list string;
  ordinal : Z
}.

(** State passing with exceptions: the state is kept when a call raises. *)
Definition M (A : Type) : Type := facade_state -> facade_state * res A.

Definition mret {A} (a : A) : M A := fun st => (st, ok a).

Definition mbind {A B} (m : M A) (k : A -> M B) : M B :=
  fun st => let '(st', r) := m st in
            match r with
            | inl e => (st', inl e)
            | inr a => k a st'
            end.

Notation "x <~ m ;; k" := (mbind m (fun x => k))
  (at level 61, m at next level, right associativity) : res_scope.

Definition lift {A} (r : res A) : M A := fun st => (st, r).

Definition print (s : string) : M unit :=
  fun st => (mkFacadeState (stdout st ++ [s]) (ordinal st), ok tt).

Definition get_ordinal : M Z := fun st => (st, ok (ordinal st)).

Definition incr_ordinal : M unit :=
  fun st => (mkFacadeState (stdout st) (ordinal st + 1), ok tt).

(** The [for child in root_node.children] loop; [commands] is the list
    being appended to. *)
Fixpoint extract_commands (commands : list Command) (nodes : list node) : M (list Command) :=
  match nodes with
  | [] => mret commands
  | child :: rest =>
      let node_type := casefold (ntype child) in
      _ <~ (if String.eqb node_type "comment" then
              s <~ lift (parse_string (Some child)) ;;
              print ("(COMMENT) " ++ str_strip whitespace (str_removeprefix "--" s))
            else mret tt) ;;
      if negb (str_endswith "_command" node_type) then extract_commands commands rest
      else
        c <~ lift (parse_command child) ;;
        _ <~ incr_ordinal ;;
        extract_commands (commands ++ [c]) rest
  end.

(** The body of the [try] block.  [engine] stands for
    [self.parser.parse(bytes(code_text, 'utf8')).root_node]: the external
    tree-sitter parser, which may raise. *)
Definition parse_script_body (engine : string -> res node) (code_text : string)
  : M (list Command * list ParseError) :=
  root_node <~ lift (engine code_text) ;;
  command_ordinal <~ get_ordinal ;;
  let errors := collect_parse_errors None root_node code_text command_ordinal in
  match errors with
  | _ :: _ => mret ([], errors)
  | [] => commands <~ extract_commands [] (children root_node) ;; mret (commands, [])
  end.

(** The diagnostic built by the [except Exception as e] handler. *)
Definition synthetic_error (command_ordinal : Z) (e : exn) : ParseError :=
  mkParseError command_ordinal (exn_str e) 0 0 "Revise your CEDARScript syntax.".

(** [parse_script] with its printed output. *)
Definition parse_script_io (engine : string -> res node) (code_text : string)
  : list string * (list Command * list ParseError) :=
  let '(st, r) := parse_script_body engine code_text (mkFacadeState [] 1) in
  match r with
  | inr v => (stdout st, v)
  | inl e => (stdout st, ([], [synthetic_error (ordinal st) e]))
  end.

(** [parse_script(code_text)]: the returned pair. *)
Definition parse_script (engine : string -> res node) (code_text : string)
  : list Command * list ParseError :=
  snd (parse_script_io engine code_text).

(* ------------------------------------------------------------------ *)
(** ** Vocabulary for the statements *)

(** A top-level node the loop turns into a command. *)
Definition is_command_node (c : node) : bool := str_endswith "_command" (casefold (ntype c)).

Definition count_command_nodes (l : list node) : nat := length (filter is_command_node l).

(** The number of nodes of the engine's error-marker type in a tree. *)
Fixpoint count_error_nodes (n : node) : nat :=
  (if String.eqb (ntype n) "ERROR" then 1 else 0)
  + list_sum (map count_error_nodes (children n)).

(** What tree-sitter guarantees of [has_error]: it is set on every error
    node and on every ancestor of a node that has it. *)
Fixpoint has_error_consistent (n : node) : bool :=
  implb (String.eqb (ntype n) "ERROR" || existsb has_error (children n)) (has_error n)
  && forallb has_error_consistent (children n).

Definition builds (c : node) : Prop := exists v, parse_command c = inr v.

(* ------------------------------------------------------------------ *)
(** ** Concrete syntax trees used as inputs below *)

(** An anonymous token, a named token, and a named inner node. *)
Definition token (t : string) : node := mkNode t false false 0 0 0 0 t [].
Definition named_leaf (t text : string) : node := mkNode t true false 0 0 0 0 text [].
Definition inner (t text : string) (kids : list node) : node :=
  mkNode t true false 0 0 0 0 text kids.

(** A [string] node wrapping a [raw_string] token. *)
Definition string_node (tok : string) : node := inner "string" tok [named_leaf "raw_string" tok].

Definition singlefile_node (tok : string) : node :=
  inner "singlefile_clause" ("FILE " ++ tok) [token "FILE"; string_node tok].

(** The relative-indent block of the two lines [@0:def foo():] and
    [@1:pass]. *)
Definition indent_line (prefix content : string) : node :=
  inner "relative_indent_line" (prefix ++ content)
    [named_leaf "relative_indent_prefix" prefix; named_leaf "match_any_char" content].

Definition def_foo_block : node :=
  inner "relative_indent_block" ("@0:def foo():" ++ newline ++ "@1:pass")
    [indent_line "@0:" "def foo():"; indent_line "@1:" "pass"].

Definition create_def_foo : node :=
  inner "create_command" "CREATE ..."
    [token "CREATE"; singlefile_node "'foo.py'";
     inner "content_clause" "WITH CONTENT ..." [token "WITH"; token "CONTENT"; def_foo_block]].

(** [MOVE FUNCTION 'foo' INSERT AFTER LINE '10' RELATIVE INDENTATION 1]. *)
Definition function_foo_marker : node :=
  inner "marker" "FUNCTION 'foo'"
    [inner "identifier_marker" "FUNCTION 'foo'" [token "FUNCTION"; string_node "'foo'"]].

Definition after_line_10 : node :=
  inner "relpos_bai" "AFTER LINE '10'"
    [inner "relpos_beforeafter" "AFTER LINE '10'"
       [token "AFTER"; inner "linemarker" "LINE '10'" [token "LINE"; string_node "'10'"]]].

Definition move_foo_after_line_10 : node :=
  inner "update_move_mos_clause" "MOVE ..."
    [token "MOVE";
     inner "marker_or_segment" "FUNCTION 'foo'" [function_foo_marker];
     inner "update_move_clause_destination" "INSERT ..."
       [inner "insert_clause" "INSERT AFTER LINE '10'" [token "INSERT"; after_line_10];
        inner "relative_indentation" "RELATIVE INDENTATION 1"
          [token "RELATIVE"; token "INDENTATION"; named_leaf "number" "1"]]].

Definition rm_a_py : node :=
  inner "rm_file_command" "RM FILE 'a.py'" [token "RM"; singlefile_node "'a.py'"].

(** A comment, a well-formed command, a comment, and a node whose type ends
    with [_command] but that [parse_command] does not know. *)
Definition script_with_select : node :=
  inner "source_file" "..."
    [named_leaf "comment" "-- remove a.py"; rm_a_py;
     named_leaf "comment" "-- then select"; inner "select_command" "SELECT ..." []].

(** A script whose second line the engine could not parse. *)
Definition script_with_error : node :=
  mkNode "source_file" true true 0 0 0 19 "RM FILE 'a.py';  ??"
    [rm_a_py; mkNode "ERROR" true true 0 17 17 19 "??" []].

(** Two comments around two well-formed commands. *)
Definition script_two_commands : node :=
  inner "source_file" "..."
    [named_leaf "comment" "-- first"; rm_a_py; named_leaf "comment" "-- second";
     inner "mv_file_command" "MV FILE 'a.py' TO 'b.py'"
       [token "MV"; singlefile_node "'a.py'";
        inner "to_value_clause" "TO 'b.py'" [token "TO"; string_node "'b.py'"]]].

(* ------------------------------------------------------------------ *)
(** ** Rendering of diagnostics *)

(** [ParseError.__str__]: [int] and [str] fields are tested for truthiness
    (0 and the empty string are false). *)
Definition parse_error_location (d : ParseError) : string :=
  "<error-details><error-location>COMMAND #" ++ int_str (command_ordinal d)
  ++ (if Z.eqb (line d) 0 then EmptyString else "; LINE #" ++ int_str (line d))
  ++ (if Z.eqb (column d) 0 then EmptyString else "; COLUMN #" ++ int_str (column d))
  ++ "</error-location>".

Definition parse_error_tail (d : ParseError) : string :=
  "<type>PARSING (no commands were applied at all)</type><description>" ++ message d
  ++ "</description><suggestion>"
  ++ (if String.eqb (suggestion d) EmptyString then EmptyString else suggestion d ++ " ")
  ++ "(NEVER apologize; just take a deep breath, re-read grammar rules (enclosed by <grammar.js> tags) "
  ++ "and fix you CEDARScript syntax)</suggestion></error-details>".

Definition parse_error_str (d : ParseError) : string :=
  parse_error_location d ++ parse_error_tail d.

(* ------------------------------------------------------------------ *)
(** ** More vocabulary for the statements *)



Definition is_some {A} (o : option A) : bool := match o with Some _ => true | None => false end.

(** A line of a relative-indent block that [parse_relative_indent_block]
    does not skip. *)
Definition complete_indent_line (ln : node) : bool :=
  String.eqb (ntype ln) "relative_indent_line"
  && is_some (find_first_by_type (children ln) "relative_indent_prefix")
  && is_some (find_first_by_type (children ln) "match_any_char").

(** The [type] field of a command. *)
Definition command_type (c : Command) : string :=
  match c with
  | CreateCommand t _ _ | RmFileCommand t _ | MvFileCommand t _ _
  | UpdateCommand t _ _ _ => t
  end.

(** The class of an editing action, and the class an action node's type
    selects in [parse_update_action]. *)
Definition action_kind (a : EditingAction) : string :=
  match a with
  | ReplaceClause _ => "replace" | DeleteClause _ => "delete"
  | InsertClause _ => "insert" | MoveClause _ _ _ _ => "move"
  end.

Definition action_node_kind (t : string) : string :=
  if String.eqb t "update_delete_mos_clause" || String.eqb t "update_delete_region_clause"
  then "delete"
  else if String.eqb t "update_move_mos_clause" || String.eqb t "update_move_region_clause"
  then "move"
  else if String.eqb t "insert_clause" then "insert"
  else "replace".

(** The wrapper types after which [parse_region] records a qualifier. *)
Definition is_relpos_node (n : node) : bool :=
  String.eqb (casefold (ntype n)) "relpos_bai"
  || String.eqb (casefold (ntype n)) "relpos_beforeafter".

(** A decimal digit character. *)
Definition is_digit_char (c : ascii) : Prop := exists k, k < 10 /\ c = ascii_of_nat (48 + k).


(** The node whose text [parse_string] decodes: the first named child of a
    [string] wrapper, or the node itself. *)
Definition string_leaf (n : node) : option node :=
  if String.eqb (casefold (ntype n)) "string" then nth_error (named_children n) 0 else Some n.


(** [OFFSET 2]. *)
Definition offset_two : node :=
  inner "offset_clause" "OFFSET 2" [token "OFFSET"; named_leaf "number" "2"].

(** [UPDATE FILE 'a.py' DELETE FUNCTION 'foo']. *)
Definition update_delete_foo : node :=
  inner "update_command" "UPDATE FILE 'a.py' DELETE FUNCTION 'foo'"
    [token "UPDATE"; singlefile_node "'a.py'";
     inner "update_delete_mos_clause" "DELETE FUNCTION 'foo'"
       [token "DELETE"; inner "marker_or_segment" "FUNCTION 'foo'" [function_foo_marker]]].

(* ------------------------------------------------------------------ *)
(** ** The facade's loop *)

Lemma parse_string_comment (c : node) :
  casefold (ntype c) = "comment" -> exists s, parse_string (Some c) = inr s.
Proof.
  intros H. unfold parse_string, req, bind, ok. rewrite H. simpl.
  eexists. reflexivity.
Qed.

(** The comment-printing step of the loop never raises and leaves the
    ordinal alone. *)
Lemma comment_step (c : node) (st : facade_state) :
  exists st1,
    (if String.eqb (casefold (ntype c)) "comment" then
       s <~ lift (parse_string (Some c)) ;;
       print ("(COMMENT) " ++ str_strip whitespace (str_removeprefix "--" s))
     else mret tt) st = (st1, inr tt) /\ ordinal st1 = ordinal st.
Proof.
  destruct (String.eqb (casefold (ntype c)) "comment") eqn:Hc.
  - apply String.eqb_eq in Hc. destruct (parse_string_comment c Hc) as [s Hs].
    unfold mbind, lift. rewrite Hs. eexists. split; reflexivity.
  - exists st. split; reflexivity.
Qed.

Lemma count_command_nodes_cons (c : node) (l : list node) :
  count_command_nodes (c :: l) =
  (if is_command_node c then 1 else 0) + count_command_nodes l.
Proof. unfold count_command_nodes. simpl. destruct (is_command_node c); reflexivity. Qed.

Lemma count_command_nodes_app (l1 l2 : list node) :
  count_command_nodes (l1 ++ l2) = count_command_nodes l1 + count_command_nodes l2.
Proof. unfold count_command_nodes. rewrite filter_app, length_app. reflexivity. Qed.

(** When every command node builds, the loop returns one command per
    command node, in order, and advances the ordinal once per command node. *)
Lemma extract_commands_ok (nodes : list node) :
  forall (cmds : list Command) (st : facade_state),
  (forall c, In c nodes -> is_command_node c = true -> builds c) ->
  exists st' vs,
    extract_commands cmds nodes st = (st', inr (cmds ++ vs)%list) /\
    ordinal st' = (ordinal st + Z.of_nat (count_command_nodes nodes))%Z /\
    Forall2 (fun c v => parse_command c = inr v) (filter is_command_node nodes) vs.
Proof.
  induction nodes as [|a rest IH]; intros cmds st Hb.
  - exists st, []. rewrite app_nil_r. repeat split; simpl; try lia. constructor.
  - destruct (comment_step a st) as [st1 [Hs1 Ho1]].
    cbn [extract_commands]. unfold mbind at 1. rewrite Hs1.
    rewrite count_command_nodes_cons. cbn [filter].
    destruct (is_command_node a) eqn:Hk; unfold is_command_node in Hk; rewrite Hk; cbn [negb].
    + destruct (Hb a (or_introl eq_refl)) as [v Hv]; [exact Hk|].
      unfold mbind at 1, lift. rewrite Hv. unfold mbind at 1, incr_ordinal.
      destruct (IH (cmds ++ [v])%list (mkFacadeState (stdout st1) (ordinal st1 + 1)))
        as [st' [vs [He [Ho Hf]]]].
      { intros c Hin Hc. apply Hb; [right; exact Hin | exact Hc]. }
      exists st', (v :: vs). rewrite He, <- app_assoc. repeat split.
      * simpl in Ho. rewrite Ho, Ho1. lia.
      * constructor; assumption.
    + destruct (IH cmds st1) as [st' [vs [He [Ho Hf]]]].
      { intros c Hin Hc. apply Hb; [right; exact Hin | exact Hc]. }
      exists st', vs. rewrite He. repeat split; [rewrite Ho, Ho1; lia | exact Hf].
Qed.

(** A command node that raises stops the loop with that exception, at the
    ordinal reached by the command nodes before it. *)
Lemma extract_commands_fail (pre : list node) (c : node) (post : list node) (e : exn) :
  forall (cmds : list Command) (st : facade_state),
  (forall x, In x pre -> is_command_node x = true -> builds x) ->
  is_command_node c = true -> parse_command c = inl e ->
  exists st',
    extract_commands cmds (pre ++ c :: post) st = (st', inl e) /\
    ordinal st' = (ordinal st + Z.of_nat (count_command_nodes pre))%Z.
Proof.
  induction pre as [|a rest IH]; intros cmds st Hb Hk He.
  - destruct (comment_step c st) as [st1 [Hs1 Ho1]].
    cbn [app extract_commands]. unfold mbind at 1. rewrite Hs1.
    unfold is_command_node in Hk. rewrite Hk. cbn [negb].
    unfold mbind at 1, lift. rewrite He. exists st1. split; [reflexivity|].
    rewrite Ho1. simpl. lia.
  - destruct (comment_step a st) as [st1 [Hs1 Ho1]].
    cbn [app extract_commands]. unfold mbind at 1. rewrite Hs1.
    rewrite count_command_nodes_cons.
    destruct (is_command_node a) eqn:Ha; unfold is_command_node in Ha; rewrite Ha; cbn [negb].
    + destruct (Hb a (or_introl eq_refl)) as [v Hv]; [exact Ha|].
      unfold mbind at 1, lift. rewrite Hv. unfold mbind at 1, incr_ordinal.
      destruct (IH (cmds ++ [v])%list (mkFacadeState (stdout st1) (ordinal st1 + 1)))
        as [st' [Hr Ho]]; try assumption.
      { intros x Hin Hx. apply Hb; [right; exact Hin | exact Hx]. }
      exists st'. split; [exact Hr|]. simpl in Ho. rewrite Ho, Ho1. lia.
    + destruct (IH cmds st1) as [st' [Hr Ho]]; try assumption.
      { intros x Hin Hx. apply Hb; [right; exact Hin | exact Hx]. }
      exists st'. split; [exact Hr|]. rewrite Ho, Ho1. lia.
Qed.

(** Conversely, whenever the loop raises, it raised in the first command
    node that does not build. *)
Lemma extract_commands_raised (nodes : list node) :
  forall (cmds : list Command) (st st' : facade_state) (e : exn),
  extract_commands cmds nodes st = (st', inl e) ->
  exists pre c post,
    nodes = (pre ++ c :: post)%list /\
    (forall x, In x pre -> is_command_node x = true -> builds x) /\
    is_command_node c = true /\ parse_command c = inl e /\
    ordinal st' = (ordinal st + Z.of_nat (count_command_nodes pre))%Z.
Proof.
  induction nodes as [|a rest IH]; intros cmds st st' e Hr.
  - discriminate Hr.
  - destruct (comment_step a st) as [st1 [Hs1 Ho1]].
    cbn [extract_commands] in Hr. unfold mbind at 1 in Hr. rewrite Hs1 in Hr.
    destruct (is_command_node a) eqn:Ha; unfold is_command_node in Ha;
      rewrite Ha in Hr; cbn [negb] in Hr.
    + unfold mbind at 1, lift in Hr.
      destruct (parse_command a) as [e'|v] eqn:Hv.
      * injection Hr as <- <-. exists [], a, rest. repeat split; auto.
        -- intros x [].
        -- simpl. rewrite Ho1. lia.
      * unfold mbind at 1, incr_ordinal in Hr.
        destruct (IH _ _ _ _ Hr) as [pre [c [post [Hn [Hb [Hk [He Ho]]]]]]].
        exists (a :: pre), c, post. repeat split; auto.
        -- rewrite Hn. reflexivity.
        -- intros x [<-|Hin] Hx; [exists v; exact Hv | apply Hb; assumption].
        -- rewrite Ho, count_command_nodes_cons. unfold is_command_node. rewrite Ha.
           simpl. rewrite Ho1. lia.
    + destruct (IH _ _ _ _ Hr) as [pre [c [post [Hn [Hb [Hk [He Ho]]]]]]].
      exists (a :: pre), c, post. repeat split; auto.
      * rewrite Hn. reflexivity.
      * intros x [<-|Hin] Hx; [unfold is_command_node in Hx; congruence | apply Hb; assumption].
      * rewrite Ho, count_command_nodes_cons. unfold is_command_node. rewrite Ha.
        rewrite Ho1. lia.
Qed.

(* ------------------------------------------------------------------ *)
(** ** The collector *)

(** Induction over nodes, through the list of children. *)
Lemma node_ind_children (P : node -> Prop) :
  (forall t nm he r c sb eb tx kids,
     Forall P kids -> P (mkNode t nm he r c sb eb tx kids)) ->
  forall n, P n.
Proof.
  intros H. fix IH 1. intros [t nm he r c sb eb tx kids]. apply H.
  induction kids as [|k ks IHks]; constructor; [apply IH | exact IHks].
Qed.

Lemma list_sum_zero (l : list nat) : Forall (fun k => k = 0) l -> list_sum l = 0.
Proof. induction 1; simpl; lia. Qed.

Lemma concat_map_nil {A B} (f : A -> list B) (l : list A) :
  (forall x, In x l -> f x = []) -> concat (map f l) = [].
Proof.
  induction l as [|x l IHl]; intros H; [reflexivity|].
  simpl. rewrite (H x (or_introl eq_refl)). apply IHl. intros y Hy. apply H. right. exact Hy.
Qed.

Lemma list_sum_zero_in (l : list nat) (k : nat) : list_sum l = 0 -> In k l -> k = 0.
Proof.
  induction l as [|x l IHl]; simpl; [intros _ []|].
  intros H [<-|Hin]; [lia | apply IHl; [lia | exact Hin]].
Qed.

(** A tree without error nodes yields no diagnostic. *)
Lemma collect_no_error_nodes (n : node) :
  forall parent code_text ord,
  count_error_nodes n = 0 -> collect_parse_errors parent n code_text ord = [].
Proof.
  induction n as [t nm he r c sb eb tx kids IH] using node_ind_children.
  intros parent code_text ord H. cbn [count_error_nodes ntype children] in H.
  simpl. destruct he; [|reflexivity].
  destruct (String.eqb t "ERROR"); [lia|]. cbn [app].
  apply concat_map_nil. intros k Hin. rewrite Forall_forall in IH. apply IH; [exact Hin|].
  apply (list_sum_zero_in (map count_error_nodes kids)); [simpl in H; lia|].
  apply in_map. exact Hin.
Qed.

(** Under tree-sitter's [has_error] guarantee, a node without the flag has
    no error node below it. *)
Lemma no_flag_no_error_nodes (n : node) :
  has_error_consistent n = true -> has_error n = false -> count_error_nodes n = 0.
Proof.
  induction n as [t nm he r c sb eb tx kids IH] using node_ind_children.
  intros Hc Hf. cbn [has_error] in Hf. subst he.
  cbn [has_error_consistent ntype children has_error] in Hc.
  apply andb_true_iff in Hc as [Himp Hall].
  destruct (String.eqb t "ERROR") eqn:Het; [discriminate|].
  destruct (existsb has_error kids) eqn:Hex; [discriminate|].
  cbn [count_error_nodes ntype children]. rewrite Het. simpl.
  apply list_sum_zero. rewrite Forall_map, Forall_forall.
  rewrite Forall_forall in IH. rewrite forallb_forall in Hall.
  intros k Hin. apply IH; [exact Hin | apply Hall, Hin |].
  destruct (has_error k) eqn:Hk; [|reflexivity].
  assert (existsb has_error kids = true) by (apply existsb_exists; eauto). congruence.
Qed.

Lemma length_concat_map {A B} (f : A -> list B) (l : list A) :
  length (concat (map f l)) = list_sum (map (fun a => length (f a)) l).
Proof. induction l; simpl; [reflexivity|]. rewrite length_app. congruence. Qed.

(** Under the same guarantee the collector reports every error node once. *)
Lemma collect_length (n : node) :
  forall parent code_text ord,
  has_error_consistent n = true ->
  length (collect_parse_errors parent n code_text ord) = count_error_nodes n.
Proof.
  induction n as [t nm he r c sb eb tx kids IH] using node_ind_children.
  intros parent code_text ord Hc.
  destruct he eqn:Hhe.
  - assert (Hall : forallb has_error_consistent kids = true).
    { cbn [has_error_consistent children] in Hc. apply andb_true_iff in Hc. apply Hc. }
    simpl. rewrite length_app, length_concat_map.
    assert (Hs : list_sum (map (fun a => length (collect_parse_errors
                   (Some (mkNode t nm true r c sb eb tx kids)) a code_text ord)) kids)
                 = list_sum (map count_error_nodes kids)).
    { f_equal. apply map_ext_in. intros k Hin.
      rewrite Forall_forall in IH. rewrite forallb_forall in Hall.
      apply IH; [exact Hin | apply Hall, Hin]. }
    rewrite Hs. destruct (String.eqb t "ERROR"); reflexivity.
  - subst he. simpl. symmetry. exact (no_flag_no_error_nodes _ Hc eq_refl).
Qed.

(** Every collected diagnostic has a 1-based position and the ordinal the
    collector was called with. *)
Lemma collect_fields (n : node) :
  forall parent code_text ord d,
  In d (collect_parse_errors parent n code_text ord) ->
  (1 <= line d)%Z /\ (1 <= column d)%Z /\ command_ordinal d = ord.
Proof.
  induction n as [t nm he r c sb eb tx kids IH] using node_ind_children.
  intros parent code_text ord d Hin. simpl in Hin.
  destruct he; [|destruct Hin].
  apply in_app_or in Hin as [Hin|Hin].
  - destruct (String.eqb t "ERROR"); [|destruct Hin].
    destruct Hin as [<-|[]]. simpl. repeat split; lia.
  - apply in_concat in Hin as [l [Hl Hd]]. apply in_map_iff in Hl as [k [<- Hk]].
    rewrite Forall_forall in IH. exact (IH k Hk _ _ _ _ Hd).
Qed.

(* ------------------------------------------------------------------ *)
(** ** Parser facade: the output contract *)

(** The three ways [parse_script_body] can end once the engine produced a
    tree and the collector found nothing. *)
Lemma parse_script_on_tree (engine : string -> res node) (code_text : string) (root : node) :
  engine code_text = inr root ->
  parse_script engine code_text =
  match collect_parse_errors None root code_text 1 with
  | _ :: _ => ([], collect_parse_errors None root code_text 1)
  | [] =>
      let '(st, r) := extract_commands [] (children root) (mkFacadeState [] 1) in
      match r with
      | inr cmds => (cmds, [])
      | inl e => ([], [synthetic_error (ordinal st) e])
      end
  end.
Proof.
  intros He. unfold parse_script, parse_script_io, parse_script_body, mbind, lift.
  rewrite He. unfold get_ordinal, ok. cbn -[collect_parse_errors extract_commands].
  destruct (collect_parse_errors None root code_text 1) as [|d ds]; [|reflexivity].
  destruct (extract_commands [] (children root) (mkFacadeState [] 1)) as [st [e|cmds]];
    reflexivity.
Qed.

(** C1: [parse_script] always returns a pair, never both lists non-empty;
    any exception becomes one synthetic diagnostic at line 0, column 0,
    with the generic suggestion, the exception's description as message and
    the ordinal reached (1 for the engine, 1 + the number of command nodes
    built before the failing one otherwise). *)
Theorem parse_script_commands_xor_diagnostics (engine : string -> res node)
  (code_text : string) :
  let '(cmds, diags) := parse_script engine code_text in
  (cmds = [] \/ diags = []) /\
  (diags = [] \/
   (cmds = [] /\
    ((exists e, engine code_text = inl e /\ diags = [synthetic_error 1 e]) \/
     (exists root, engine code_text = inr root /\
        (diags = collect_parse_errors None root code_text 1 \/
         (collect_parse_errors None root code_text 1 = [] /\
          exists pre c post e,
            children root = (pre ++ c :: post)%list /\
            (forall x, In x pre -> is_command_node x = true -> builds x) /\
            is_command_node c = true /\ parse_command c = inl e /\
            diags = [synthetic_error (1 + Z.of_nat (count_command_nodes pre)) e])))))).
Proof.
  destruct (engine code_text) as [e|root] eqn:He.
  - unfold parse_script, parse_script_io, parse_script_body, mbind, lift.
    rewrite He. cbn. split; [left; reflexivity|].
    right. split; [reflexivity|]. left. exists e. split; reflexivity.
  - rewrite (parse_script_on_tree engine code_text root He).
    destruct (collect_parse_errors None root code_text 1) as [|d ds] eqn:Hc.
    + destruct (extract_commands [] (children root) (mkFacadeState [] 1))
        as [st [e|cmds]] eqn:Hx.
      * destruct (extract_commands_raised _ _ _ _ _ Hx)
          as [pre [c [post [Hn [Hb [Hk [Hpe Ho]]]]]]].
        split; [left; reflexivity|]. right. split; [reflexivity|].
        right. exists root. split; [reflexivity|]. right. split; [exact Hc|].
        exists pre, c, post, e. refine (conj Hn (conj Hb (conj Hk (conj Hpe _)))).
        rewrite Ho. reflexivity.
      * split; [right | left]; reflexivity.
    + split; [left; reflexivity|]. right. split; [reflexivity|].
      right. exists root. split; [reflexivity | left; symmetry; exact Hc].
Qed.

(** C2: when the tree has an error node (and [has_error] is set as
    tree-sitter sets it), no command is returned, and the diagnostics are
    the collector's full list: one per error node, each at a line and
    column of at least 1. *)
Theorem parse_script_error_nodes_give_only_diagnostics (engine : string -> res node)
  (code_text : string) (root : node) :
  engine code_text = inr root ->
  has_error_consistent root = true ->
  (1 <= count_error_nodes root)%nat ->
  parse_script engine code_text = ([], collect_parse_errors None root code_text 1) /\
  length (snd (parse_script engine code_text)) = count_error_nodes root /\
  Forall (fun d => (1 <= line d)%Z /\ (1 <= column d)%Z) (snd (parse_script engine code_text)).
Proof.
  intros He Hc Hn.
  assert (Hlen := collect_length root None code_text 1 Hc).
  assert (Heq : parse_script engine code_text = ([], collect_parse_errors None root code_text 1)).
  { rewrite (parse_script_on_tree engine code_text root He).
    destruct (collect_parse_errors None root code_text 1); [simpl in Hlen; lia | reflexivity]. }
  rewrite Heq. cbn [snd]. repeat split; [exact Hlen|].
  apply Forall_forall. intros d Hd. destruct (collect_fields _ _ _ _ _ Hd) as [H1 [H2 _]].
  split; assumption.
Qed.

(** C3: on a tree without error nodes whose command nodes all build, the
    result is one command per top-level command node, in order, and no
    diagnostic; the ordinal starts at 1 and, after any prefix of the
    top-level nodes, is 1 plus the number of command nodes in it; a comment
    node is never a command node. *)
Theorem parse_script_one_command_per_command_node (engine : string -> res node)
  (code_text : string) (root : node) :
  engine code_text = inr root ->
  count_error_nodes root = 0 ->
  (forall c, In c (children root) -> is_command_node c = true -> builds c) ->
  (exists cmds,
     parse_script engine code_text = (cmds, []) /\
     length cmds = count_command_nodes (children root) /\
     Forall2 (fun c v => parse_command c = inr v) (filter is_command_node (children root)) cmds) /\
  (forall pre post, children root = (pre ++ post)%list ->
     ordinal (fst (extract_commands [] pre (mkFacadeState [] 1)))
     = (1 + Z.of_nat (count_command_nodes pre))%Z) /\
  (forall c, casefold (ntype c) = "comment" -> is_command_node c = false).
Proof.
  intros He Hn Hb. split; [|split].
  - rewrite (parse_script_on_tree engine code_text root He).
    rewrite (collect_no_error_nodes root None code_text 1 Hn).
    destruct (extract_commands_ok (children root) [] (mkFacadeState [] 1) Hb)
      as [st [vs [Hx [_ Hf]]]].
    rewrite Hx. exists vs. repeat split; [|exact Hf].
    unfold count_command_nodes. symmetry. exact (Forall2_length Hf).
  - intros pre post Hsplit.
    assert (Hpre : forall c, In c pre -> is_command_node c = true -> builds c).
    { intros c Hin. apply Hb. rewrite Hsplit. apply in_or_app. left. exact Hin. }
    destruct (extract_commands_ok pre [] (mkFacadeState [] 1) Hpre)
      as [st [vs [Hx [Ho _]]]].
    rewrite Hx. exact Ho.
  - intros c Hc. unfold is_command_node. rewrite Hc. reflexivity.
Qed.

Lemma parse_script_one_command_per_command_node_witness :
  count_error_nodes script_two_commands = 0 /\
  ((exists cmds,
     parse_script (fun _ => inr script_two_commands) "" = (cmds, []) /\
     length cmds = count_command_nodes (children script_two_commands) /\
     Forall2 (fun c v => parse_command c = inr v)
       (filter is_command_node (children script_two_commands)) cmds) /\
   (forall pre post, children script_two_commands = (pre ++ post)%list ->
     ordinal (fst (extract_commands [] pre (mkFacadeState [] 1)))
     = (1 + Z.of_nat (count_command_nodes pre))%Z) /\
   (forall c, casefold (ntype c) = "comment" -> is_command_node c = false)).
Proof.
  split; [reflexivity|].
  apply (parse_script_one_command_per_command_node (fun _ => inr script_two_commands) ""
           script_two_commands eq_refl eq_refl).
  intros c Hin Hk. simpl in Hin.
  destruct Hin as [<-|[<-|[<-|[<-|[]]]]];
    first [discriminate Hk | eexists; reflexivity].
Defined.

(** C9: when building the N-th top-level command node raises, the commands
    built before it are dropped and the result is one synthetic diagnostic
    with ordinal N; a command node of an unknown type raises. *)
Theorem parse_script_command_failure_discards_built (engine : string -> res node)
  (code_text : string) (root : node) (pre : list node) (c : node) (post : list node) (e : exn) :
  engine code_text = inr root ->
  collect_parse_errors None root code_text 1 = [] ->
  children root = (pre ++ c :: post)%list ->
  (forall x, In x pre -> is_command_node x = true -> builds x) ->
  is_command_node c = true ->
  parse_command c = inl e ->
  parse_script engine code_text
    = ([], [synthetic_error (1 + Z.of_nat (count_command_nodes pre)) e]) /\
  (forall n, ~ In (ntype n) ["create_command"; "rm_file_command"; "mv_file_command"; "update_command"] ->
     parse_command n = inl (ValueError ("Unexpected command type: " ++ ntype n))).
Proof.
  intros He Hc Hsplit Hb Hk Hpe. split.
  - rewrite (parse_script_on_tree engine code_text root He), Hc, Hsplit.
    destruct (extract_commands_fail pre c post e [] (mkFacadeState [] 1) Hb Hk Hpe)
      as [st [Hx Ho]].
    rewrite Hx, Ho. reflexivity.
  - intros n Hn. unfold parse_command.
    destruct (String.eqb_spec (ntype n) "create_command") as [E|_];
      [exfalso; apply Hn; rewrite E; simpl; auto|].
    destruct (String.eqb_spec (ntype n) "rm_file_command") as [E|_];
      [exfalso; apply Hn; rewrite E; simpl; auto|].
    destruct (String.eqb_spec (ntype n) "mv_file_command") as [E|_];
      [exfalso; apply Hn; rewrite E; simpl; auto|].
    destruct (String.eqb_spec (ntype n) "update_command") as [E|_];
      [exfalso; apply Hn; rewrite E; simpl; auto|].
    reflexivity.
Qed.

Lemma parse_script_command_failure_discards_built_witness :
  parse_script (fun _ => inr script_with_select) ""
    = ([], [synthetic_error 2 (ValueError "Unexpected command type: select_command")]).
Proof.
  destruct (parse_script_command_failure_discards_built (fun _ => inr script_with_select) ""
              script_with_select
              [named_leaf "comment" "-- remove a.py"; rm_a_py; named_leaf "comment" "-- then select"]
              (inner "select_command" "SELECT ..." []) []
              (ValueError "Unexpected command type: select_command")
              eq_refl eq_refl eq_refl) as [H _].
  - intros x Hin Hk. simpl in Hin.
    destruct Hin as [<-|[<-|[<-|[]]]]; first [discriminate Hk | eexists; reflexivity].
  - reflexivity.
  - reflexivity.
  - exact H.
Defined.

(** C10: the collector is called once, with ordinal 1, before any command
    is counted; all its diagnostics carry ordinal 1, and they are the
    result whenever there is one. *)
Theorem collector_diagnostics_have_ordinal_one (engine : string -> res node)
  (code_text : string) (root : node) :
  engine code_text = inr root ->
  Forall (fun d => command_ordinal d = 1%Z) (collect_parse_errors None root code_text 1) /\
  (collect_parse_errors None root code_text 1 <> [] ->
   parse_script engine code_text = ([], collect_parse_errors None root code_text 1)).
Proof.
  intros He. split.
  - apply Forall_forall. intros d Hd. apply (collect_fields _ _ _ _ _ Hd).
  - intros Hne. rewrite (parse_script_on_tree engine code_text root He).
    destruct (collect_parse_errors None root code_text 1); [contradiction | reflexivity].
Qed.

Lemma collector_diagnostics_have_ordinal_one_witness :
  Forall (fun d => command_ordinal d = 1%Z)
    (collect_parse_errors None script_with_error "RM FILE 'a.py';  ??" 1) /\
  (collect_parse_errors None script_with_error "RM FILE 'a.py';  ??" 1 <> [] ->
   parse_script (fun _ => inr script_with_error) "RM FILE 'a.py';  ??"
   = ([], collect_parse_errors None script_with_error "RM FILE 'a.py';  ??" 1)).
Proof.
  apply (collector_diagnostics_have_ordinal_one (fun _ => inr script_with_error)
           "RM FILE 'a.py';  ??" script_with_error eq_refl).
Defined.

Lemma parse_script_error_nodes_give_only_diagnostics_witness :
  has_error_consistent script_with_error = true /\
  (1 <= count_error_nodes script_with_error)%nat /\
  parse_script (fun _ => inr script_with_error) "RM FILE 'a.py';  ??"
    = ([], collect_parse_errors None script_with_error "RM FILE 'a.py';  ??" 1).
Proof.
  split; [reflexivity|]. split; [simpl; lia|].
  apply (parse_script_error_nodes_give_only_diagnostics (fun _ => inr script_with_error)
           "RM FILE 'a.py';  ??" script_with_error eq_refl); [reflexivity | simpl; lia].
Defined.

(* ------------------------------------------------------------------ *)
(** ** Decoders, rendering, [files_to_change] and the move clause *)

(** C4 (evaluated): the [single_quoted_string] example decodes as the spec
    says, but [strip] removes every quote character at either end, so a
    token whose content ends with an escaped quote loses it, and a
    double-quoted raw string loses the single quotes of its content. *)
Theorem parse_string_strips_every_quote_layer :
  parse_string (Some (named_leaf "single_quoted_string" "'it\'s ok'")) = inr "it's ok" /\
  parse_string (Some (named_leaf "single_quoted_string" "'x\''")) = inr "x" /\
  parse_string (Some (string_node (String dq ("'quoted'" ++ String dq EmptyString))))
    = inr "quoted".
Proof. repeat split; vm_compute; reflexivity. Qed.

(** C5 (evaluated): [indent_prefix.text] is [bytes], so [strip('@:')]
    raises [TypeError] on the first line that has a prefix and content;
    in [parse_script] this becomes the one synthetic diagnostic.  The
    content would also be inserted as the [repr] of [bytes]. *)
Theorem relative_indent_block_raises_on_bytes :
  parse_relative_indent_block def_foo_block
    = inl (TypeError "a bytes-like object is required, not 'str'") /\
  parse_script (fun _ => inr (inner "source_file" "CREATE ..." [create_def_foo])) "CREATE ..."
    = ([], [synthetic_error 1 (TypeError "a bytes-like object is required, not 'str'")]) /\
  py_format (node_text (named_leaf "match_any_char" "pass")) = "b'pass'".
Proof. repeat split; vm_compute; reflexivity. Qed.

(** C6 (evaluated): the single-file commands, [MvFileCommand] and an
    update without a cross-file move give the expected paths, but a move
    with [to_other_file] appends the [SingleFileClause] object itself, not
    its [file_path]. *)
Theorem files_to_change_cross_file_move_appends_clause :
  (forall ty p c, files_to_change (CreateCommand ty p c) = [FStr p]) /\
  (forall ty p, files_to_change (RmFileCommand ty p) = [FStr p]) /\
  (forall ty p t, files_to_change (MvFileCommand ty p t) = [FStr p; FStr t]) /\
  (forall ty tgt r ip ri c,
     files_to_change (UpdateCommand ty tgt (MoveClause r ip None ri) c)
     = [FStr (target_file_path tgt)]) /\
  files_to_change
    (UpdateCommand "update" (TSingleFile (mkSingleFile "a.py"))
       (MoveClause (RBodyOrWhole BODY) (RRelativeMarker AFTER (mkMarker LINE "10" None))
          (Some (mkSingleFile "b.py")) None) None)
    = [FStr "a.py"; FSingleFileClause (mkSingleFile "b.py")] /\
  [FStr "a.py"; FSingleFileClause (mkSingleFile "b.py")] <> [FStr "a.py"; FStr "b.py"].
Proof.
  repeat split; try reflexivity. intros H. discriminate H.
Qed.

(** [parse_insert_clause] only ever builds an [InsertClause]. *)
Lemma parse_insert_clause_shape (o : option node) (a : EditingAction) :
  parse_insert_clause o = inr a -> exists p, a = InsertClause p.
Proof.
  unfold parse_insert_clause, bind, ok.
  destruct (req "children" o) as [|n]; [discriminate|].
  destruct (req "type" (find_first_by_type (children n) "relpos_bai")) as [|rm]; [discriminate|].
  destruct (parse_region rm) as [|r]; [discriminate|].
  intros H. injection H as <-. exists r. reflexivity.
Qed.

(** C7: a built move clause carries the insert clause's position found in
    the destination, the destination's relative indentation ([None] when
    absent), and [to_other_file = None]. *)
Theorem parse_move_clause_fields (n : node) (a : EditingAction) :
  parse_move_clause n = inr a ->
  exists source insert_position rel_indent dest,
    a = MoveClause source insert_position None rel_indent /\
    find_first_by_type (named_children n) "update_move_clause_destination" = Some dest /\
    parse_insert_clause (find_first_by_type (named_children dest) "insert_clause")
      = inr (InsertClause insert_position) /\
    parse_relative_indentation (find_first_by_type (named_children dest) "relative_indentation")
      = inr rel_indent.
Proof.
  unfold parse_move_clause, bind, req, raise, ok.
  destruct (find_first_by_types (named_children n) region_clause_types) as [sn|]; [|discriminate].
  destruct (parse_region sn) as [|source]; [discriminate|].
  destruct (find_first_by_type (named_children n) "update_move_clause_destination")
    as [dest|]; [|discriminate].
  destruct (parse_insert_clause (find_first_by_type (named_children dest) "insert_clause"))
    as [|ic] eqn:Hi; [discriminate|].
  destruct (parse_relative_indentation
              (find_first_by_type (named_children dest) "relative_indentation"))
    as [|ri] eqn:Hr; [discriminate|].
  destruct (parse_insert_clause_shape _ _ Hi) as [p ->].
  cbn [get_insert_position ok]. intros H. injection H as <-.
  exists source, p, ri, dest. repeat split; assumption.
Qed.

Lemma parse_move_clause_fields_witness :
  parse_move_clause move_foo_after_line_10
    = inr (MoveClause (RMarker (mkMarker FUNCTION "foo" None))
             (RRelativeMarker AFTER (mkMarker LINE "10" None)) None (Some 1%Z)) /\
  exists source insert_position rel_indent dest,
    MoveClause (RMarker (mkMarker FUNCTION "foo" None))
      (RRelativeMarker AFTER (mkMarker LINE "10" None)) None (Some 1%Z)
    = MoveClause source insert_position None rel_indent /\
    find_first_by_type (named_children move_foo_after_line_10) "update_move_clause_destination"
      = Some dest /\
    parse_insert_clause (find_first_by_type (named_children dest) "insert_clause")
      = inr (InsertClause insert_position) /\
    parse_relative_indentation (find_first_by_type (named_children dest) "relative_indentation")
      = inr rel_indent.
Proof.
  assert (H : parse_move_clause move_foo_after_line_10
    = inr (MoveClause (RMarker (mkMarker FUNCTION "foo" None))
             (RRelativeMarker AFTER (mkMarker LINE "10" None)) None (Some 1%Z)))
    by (vm_compute; reflexivity).
  split; [exact H|]. exact (parse_move_clause_fields _ _ H).
Defined.

(** C8: [Marker.__str__] is [<kind> '<value>'] followed by [ at offset N]
    exactly when there is an offset; [RelativeMarker.__str__] appends
    [ (<qualifier>)] for every qualifier but AT. *)
Theorem marker_rendering :
  (forall t v, marker_str (mkMarker t v None) = marker_type_value t ++ " '" ++ v ++ "'") /\
  (forall t v o, marker_str (mkMarker t v (Some o))
                 = (marker_type_value t ++ " '" ++ v ++ "'") ++ " at offset " ++ int_str o) /\
  (forall m, relative_marker_str AT m = marker_str m) /\
  (forall m, relative_marker_str BEFORE m = marker_str m ++ " (before)") /\
  (forall m, relative_marker_str AFTER m = marker_str m ++ " (after)") /\
  (forall m, relative_marker_str INSIDE m = marker_str m ++ " (inside)") /\
  marker_str (mkMarker FUNCTION "foo" (Some 2%Z)) = "function 'foo' at offset 2" /\
  relative_marker_str BEFORE (mkMarker FUNCTION "foo" (Some 2%Z))
    = "function 'foo' at offset 2 (before)" /\
  relative_marker_str AT (mkMarker FUNCTION "foo" (Some 2%Z)) = "function 'foo' at offset 2".
Proof. repeat split; reflexivity. Qed.

(* ------------------------------------------------------------------ *)
(** ** Further properties of the module *)

(** Where a returned diagnostic comes from: the [except] handler, or the
    collector run on the engine's tree. *)
Lemma parse_script_diagnostic_sources (engine : string -> res node) (code_text : string)
  (d : ParseError) :
  In d (snd (parse_script engine code_text)) ->
  (exists o e, d = synthetic_error o e) \/
  (exists root, engine code_text = inr root /\ In d (collect_parse_errors None root code_text 1)).
Proof.
  destruct (engine code_text) as [e|root] eqn:He.
  - unfold parse_script, parse_script_io, parse_script_body, mbind, lift.
    rewrite He. cbn. intros [<-|[]]. left. eauto.
  - rewrite (parse_script_on_tree engine code_text root He).
    destruct (collect_parse_errors None root code_text 1) as [|d0 ds] eqn:Hc.
    + destruct (extract_commands [] (children root) (mkFacadeState [] 1)) as [st [e|cmds]].
      * cbn. intros [<-|[]]. left. eauto.
      * cbn. intros [].
    + cbn [snd]. intros Hd. right. exists root. split; [reflexivity|]. rewrite Hc. exact Hd.
Qed.

(** Every diagnostic [parse_script] returns renders its location with a
    LINE and a COLUMN exactly when it comes from the collector (ordinal 1,
    1-based position); the synthetic one of the [except] handler renders
    only its COMMAND ordinal. *)
Theorem parse_script_diagnostic_location (engine : string -> res node) (code_text : string)
  (d : ParseError) :
  In d (snd (parse_script engine code_text)) ->
  (line d = 0%Z /\ column d = 0%Z /\ suggestion d = "Revise your CEDARScript syntax." /\
   parse_error_location d
   = "<error-details><error-location>COMMAND #" ++ int_str (command_ordinal d)
     ++ "</error-location>") \/
  ((1 <= line d)%Z /\ (1 <= column d)%Z /\ command_ordinal d = 1%Z /\
   parse_error_location d
   = "<error-details><error-location>COMMAND #" ++ int_str 1 ++ ("; LINE #" ++ int_str (line d))
     ++ ("; COLUMN #" ++ int_str (column d)) ++ "</error-location>").
Proof.
  intros Hd. destruct (parse_script_diagnostic_sources _ _ _ Hd) as [[o [e ->]]|[root [_ Hin]]].
  - left. repeat split; reflexivity.
  - right. destruct (collect_fields _ _ _ _ _ Hin) as [Hl [Hc Ho]].
    repeat split; try assumption.
    unfold parse_error_location. rewrite Ho.
    replace (Z.eqb (line d) 0) with false by (symmetry; apply Z.eqb_neq; lia).
    replace (Z.eqb (column d) 0) with false by (symmetry; apply Z.eqb_neq; lia).
    reflexivity.
Qed.

Lemma parse_script_diagnostic_location_witness :
  In (mkParseError 1 "Syntax error near '??' at line 1, column 18." 1 18
        "Please check the syntax near the error (parent node: source_file)")
     (snd (parse_script (fun _ => inr script_with_error) "RM FILE 'a.py';  ??")) /\
  parse_error_location
    (mkParseError 1 "Syntax error near '??' at line 1, column 18." 1 18
       "Please check the syntax near the error (parent node: source_file)")
  = "<error-details><error-location>COMMAND #1; LINE #1; COLUMN #18</error-location>".
Proof.
  assert (Hin : In (mkParseError 1 "Syntax error near '??' at line 1, column 18." 1 18
                      "Please check the syntax near the error (parent node: source_file)")
                   (snd (parse_script (fun _ => inr script_with_error) "RM FILE 'a.py';  ??")))
    by (vm_compute; left; reflexivity).
  split; [exact Hin|].
  destruct (parse_script_diagnostic_location _ _ _ Hin) as [[H _]|[_ [_ [_ H]]]].
  - discriminate H.
  - rewrite H. reflexivity.
Defined.

Lemma relative_indent_lines_outcome (line_nodes : list node) :
  forall lines,
  relative_indent_lines lines line_nodes
  = if existsb complete_indent_line line_nodes
    then inl (TypeError "a bytes-like object is required, not 'str'") else inr lines.
Proof.
  induction line_nodes as [|ln rest IH]; intros lines; [reflexivity|].
  cbn [relative_indent_lines existsb]. unfold complete_indent_line.
  destruct (String.eqb (ntype ln) "relative_indent_line"); cbn [andb]; [|apply IH].
  destruct (find_first_by_type (children ln) "relative_indent_prefix");
    destruct (find_first_by_type (children ln) "match_any_char"); cbn; try apply IH.
  reflexivity.
Qed.

(** [parse_relative_indent_block] never produces text: it raises
    [TypeError] as soon as the block has a line with both an indent prefix
    and content, and returns the empty string otherwise. *)
Theorem relative_indent_block_outcome (n : node) :
  parse_relative_indent_block n
  = if existsb complete_indent_line (children n)
    then inl (TypeError "a bytes-like object is required, not 'str'") else inr EmptyString.
Proof.
  unfold parse_relative_indent_block. rewrite relative_indent_lines_outcome.
  destruct (existsb complete_indent_line (children n)); reflexivity.
Qed.


(** Inverting a chain of [res] and [option] matches in a hypothesis. *)
Ltac invert_res H :=
  repeat match type of H with
  | context [match ?x with inl _ => _ | inr _ => _ end] =>
      let E := fresh "E" in destruct x eqn:E; try discriminate H
  | context [match ?x with Some _ => _ | None => _ end] =>
      let E := fresh "E" in destruct x eqn:E; try discriminate H
  end.



Lemma unwrap_region_qualifier (n : node) q k :
  unwrap_region n = inr (q, k) -> is_some q = is_relpos_node n.
Proof.
  unfold unwrap_region, is_relpos_node.
  remember (casefold (ntype n)) as t eqn:Ht; clear Ht.
  intros H; unfold bind, ok in H.
  destruct (String.eqb t "marker_or_segment") eqn:E1.
  { apply String.eqb_eq in E1; subst t. invert_res H. injection H as <- _. reflexivity. }
  destruct (String.eqb t "region_field") eqn:E2.
  { apply String.eqb_eq in E2; subst t. invert_res H;
      destruct (String.eqb (casefold (ntype n0)) "marker_or_segment"); try discriminate H;
      injection H as <- _; reflexivity. }
  destruct (String.eqb t "relpos_bai") eqn:E3.
  { invert_res H. injection H as <- _. reflexivity. }
  destruct (String.eqb t "relpos_beforeafter") eqn:E4.
  { invert_res H. injection H as <- _. reflexivity. }
  destruct (String.eqb t "relpos_at") eqn:E5.
  { invert_res H. injection H as <- _. reflexivity. }
  injection H as <- _. reflexivity.
Qed.

Lemma parse_segment_shape pr (n : node) r :
  parse_segment pr n = inr r -> exists a b, r = RSegment a b.
Proof.
  unfold parse_segment, bind, ok. intros H. invert_res H.
  injection H as <-. eauto.
Qed.

Lemma parse_region_depth_qualified d (n : node) r :
  parse_region_depth d n = inr r ->
  (is_relpos_node n = true <-> exists q m, r = RRelativeMarker q m).
Proof.
  destruct d as [|d]; [discriminate|].
  cbn [parse_region_depth]. unfold bind at 1.
  destruct (unwrap_region n) as [|[q k]] eqn:Hu; [discriminate|].
  apply unwrap_region_qualifier in Hu. rewrite <- Hu.
  unfold bind.
  match goal with
  | |- match ?X with inl _ => _ | inr _ => _ end = _ -> _ =>
      destruct X as [|res0] eqn:Hr; [discriminate|]
  end.
  assert (Hn : forall q m, res0 <> RRelativeMarker q m).
  { intros q0 m0 ->.
    repeat match type of Hr with
    | context [if ?b then _ else _] => destruct b
    end; unfold bind, ok, raise in Hr; invert_res Hr; try discriminate Hr.
    apply parse_segment_shape in Hr as (a & b & Hab). discriminate Hab. }
  destruct q as [q|]; cbn [is_some]; intros H.
  - destruct res0; cbn in H; try discriminate H; injection H as <-;
      split; eauto.
  - injection H as <-. split; [discriminate|].
    intros (q0 & m0 & E). destruct (Hn q0 m0 E).
Qed.

(** A region parses to a qualified [RelativeMarker] exactly when its node
    is a [relpos_bai] or [relpos_beforeafter] node (case-insensitive);
    every other region node gives an unqualified region. *)
Theorem parse_region_qualified_iff (n : node) (r : Region) :
  parse_region n = inr r ->
  (is_relpos_node n = true <-> exists q m, r = RRelativeMarker q m).
Proof. apply parse_region_depth_qualified. Qed.

Lemma parse_region_qualified_iff_witness :
  parse_region after_line_10 = inr (RRelativeMarker AFTER (mkMarker LINE "10" None)) /\
  (is_relpos_node after_line_10 = true <->
   exists q m, RRelativeMarker AFTER (mkMarker LINE "10" None) = RRelativeMarker q m).
Proof.
  assert (H : parse_region after_line_10 = inr (RRelativeMarker AFTER (mkMarker LINE "10" None)))
    by (vm_compute; reflexivity).
  split; [exact H|]. exact (parse_region_qualified_iff _ _ H).
Defined.

(* ------------------------------------------------------------------ *)
(** ** Decimal numbers: [str(int)] read back by [int(...)] *)

Lemma digit_cases (k : nat) :
  k < 10 -> k = 0 \/ k = 1 \/ k = 2 \/ k = 3 \/ k = 4 \/ k = 5 \/ k = 6 \/ k = 7 \/ k = 8 \/ k = 9.
Proof. lia. Qed.

Lemma digit_val_digit (k : nat) : k < 10 -> digit_val (ascii_of_nat (48 + k)) = Some k.
Proof.
  intros Hk. unfold digit_val. rewrite nat_ascii_embedding by lia.
  replace (Nat.leb 48 (48 + k) && Nat.leb (48 + k) 57) with true
    by (symmetry; apply andb_true_iff; split; apply Nat.leb_le; lia).
  f_equal. lia.
Qed.

Lemma digit_not_whitespace (c : ascii) : is_digit_char c -> ascii_in c whitespace = false.
Proof.
  intros (k & Hk & ->).
  destruct (digit_cases k Hk) as [->|[->|[->|[->|[->|[->|[->|[->|[->| ->]]]]]]]]];
    reflexivity.
Qed.

Lemma digits_rev_digits (f n : nat) : Forall is_digit_char (digits_rev f n).
Proof.
  revert n; induction f as [|f IH]; intros n; cbn [digits_rev]; [constructor|].
  assert (Hd : is_digit_char (ascii_of_nat (48 + n mod 10)))
    by (exists (n mod 10); split; [apply Nat.mod_upper_bound; lia | reflexivity]).
  destruct (Nat.ltb n 10); constructor; auto.
Qed.

Lemma digits_val_snoc (acc : Z) (l : list ascii) (c : ascii) :
  digits_val acc (l ++ [c]) =
  match digits_val acc l with
  | Some v => match digit_val c with Some d => Some (10 * v + Z.of_nat d)%Z | None => None end
  | None => None
  end.
Proof.
  revert acc; induction l as [|a l IH]; intros acc; cbn.
  - destruct (digit_val c); reflexivity.
  - destruct (digit_val a); [apply IH | reflexivity].
Qed.

Lemma digits_rev_value (f n : nat) :
  n < f ->
  digits_val 0 (rev (digits_rev f n)) = Some (Z.of_nat n) /\ digits_rev f n <> [].
Proof.
  revert n; induction f as [|f IH]; intros n Hn; [lia|].
  cbn [digits_rev].
  pose proof (Nat.mod_upper_bound n 10 ltac:(lia)) as Hm.
  destruct (Nat.ltb n 10) eqn:Hlt.
  - apply Nat.ltb_lt in Hlt. split; [|discriminate].
    cbn [rev app digits_val]. rewrite digit_val_digit by lia.
    rewrite Nat.mod_small by lia. reflexivity.
  - apply Nat.ltb_ge in Hlt. split; [|discriminate].
    cbn [rev]. rewrite digits_val_snoc.
    destruct (IH (n / 10)) as [IH1 _].
    { pose proof (Nat.div_mod_eq n 10). lia. }
    rewrite IH1, digit_val_digit by lia. f_equal.
    pose proof (Nat.div_mod_eq n 10). lia.
Qed.

Lemma str_strip_keeps (l : list ascii) :
  Forall (fun c => ascii_in c whitespace = false) l ->
  chars (str_strip whitespace (of_chars l)) = l.
Proof.
  intros Hl. unfold str_strip, chars, of_chars.
  rewrite !list_ascii_of_string_of_list_ascii.
  assert (Hd : forall l', Forall (fun c => ascii_in c whitespace = false) l' ->
                 drop_while (fun c => ascii_in c whitespace) l' = l').
  { intros [|c l'] H; [reflexivity|]. inversion H as [|? ? Hc]; subst.
    cbn [drop_while]. rewrite Hc. reflexivity. }
  rewrite (Hd l Hl), (Hd (rev l)) by (apply Forall_rev; exact Hl).
  apply rev_involutive.
Qed.

Lemma nat_str_chars (n : nat) :
  exists c l, chars (nat_str n) = c :: l /\ is_digit_char c /\
    Forall is_digit_char (c :: l) /\ digits_val 0 (c :: l) = Some (Z.of_nat n).
Proof.
  destruct (digits_rev_value (S n) n ltac:(lia)) as [Hv Hne].
  pose proof (digits_rev_digits (S n) n) as Hdig.
  unfold nat_str, chars, of_chars. rewrite list_ascii_of_string_of_list_ascii.
  destruct (rev (digits_rev (S n) n)) as [|c l] eqn:Hr.
  - apply (f_equal (@rev ascii)) in Hr. rewrite rev_involutive in Hr. contradiction.
  - apply Forall_rev in Hdig. rewrite Hr in Hdig.
    exists c, l. inversion Hdig; subst. repeat split; auto.
Qed.

Lemma parse_int_text_nat_str (n : nat) : parse_int_text (nat_str n) = Some (Z.of_nat n).
Proof.
  destruct (nat_str_chars n) as (c & l & Hc & Hd & Hall & Hv).
  unfold parse_int_text.
  replace (nat_str n) with (of_chars (c :: l))
    by (rewrite <- Hc; apply string_of_list_ascii_of_string).
  rewrite str_strip_keeps
    by (eapply Forall_impl; [exact digit_not_whitespace | exact Hall]).
  rewrite <- Hv. destruct Hd as (k & Hk & ->).
  destruct (digit_cases k Hk) as [->|[->|[->|[->|[->|[->|[->|[->|[->| ->]]]]]]]]];
    destruct l; reflexivity.
Qed.

Lemma parse_int_text_int_str (z : Z) : parse_int_text (int_str z) = Some z.
Proof.
  unfold int_str. destruct (Z.ltb_spec z 0) as [Hz|Hz].
  - destruct (nat_str_chars (Z.to_nat (- z))) as (c & l & Hc & Hd & Hall & Hv).
    unfold parse_int_text.
    replace ("-" ++ nat_str (Z.to_nat (- z))) with (of_chars ("-"%char :: c :: l))
      by (change (of_chars ("-"%char :: c :: l)) with ("-" ++ of_chars (c :: l));
          f_equal; rewrite <- Hc;
          first [apply string_of_list_ascii_of_string
                | symmetry; apply string_of_list_ascii_of_string]).
    rewrite str_strip_keeps.
    + cbn [option_map]. rewrite Hv. cbn. f_equal. lia.
    + constructor; [reflexivity|].
      eapply Forall_impl; [exact digit_not_whitespace | exact Hall].
  - rewrite parse_int_text_nat_str. f_equal. lia.
Qed.

(** An [offset_clause] or [relative_indentation] whose [number] child
    spells [str(z)] is read back as [z], for every integer [z]. *)
Theorem number_clause_int_round_trip (cl num : node) (z : Z) :
  find_first_by_type (children cl) "number" = Some num ->
  ntext num = int_str z ->
  parse_offset_clause (Some cl) = inr (Some z) /\
  parse_relative_indentation (Some cl) = inr (Some z).
Proof.
  intros Hf Ht. unfold parse_offset_clause, parse_relative_indentation, bind, req, ok.
  rewrite Hf. unfold py_int, node_text. cbn [ok]. rewrite Ht, parse_int_text_int_str.
  split; reflexivity.
Qed.

Lemma number_clause_int_round_trip_witness :
  find_first_by_type (children offset_two) "number" = Some (named_leaf "number" "2") /\
  ntext (named_leaf "number" "2") = int_str 2 /\
  parse_offset_clause (Some offset_two) = inr (Some 2%Z) /\
  parse_relative_indentation (Some offset_two) = inr (Some 2%Z).
Proof.
  split; [reflexivity|]. split; [reflexivity|].
  exact (number_clause_int_round_trip offset_two (named_leaf "number" "2") 2 eq_refl eq_refl).
Defined.

(** [parse_command] builds the command class named by the node type:
    a built command's type, followed by [_command], is the node type. *)
Theorem parse_command_routes_by_type (n : node) (c : Command) :
  parse_command n = inr c -> command_type c ++ "_command" = ntype n.
Proof.
  unfold parse_command. intros H.
  destruct (String.eqb (ntype n) "create_command") eqn:E1.
  { apply String.eqb_eq in E1. rewrite E1.
    unfold parse_create_command, bind, ok in H. invert_res H. injection H as <-. reflexivity. }
  destruct (String.eqb (ntype n) "rm_file_command") eqn:E2.
  { apply String.eqb_eq in E2. rewrite E2.
    unfold parse_rm_file_command, bind, ok in H. invert_res H. injection H as <-. reflexivity. }
  destruct (String.eqb (ntype n) "mv_file_command") eqn:E3.
  { apply String.eqb_eq in E3. rewrite E3.
    unfold parse_mv_file_command, bind, ok in H. invert_res H. injection H as <-. reflexivity. }
  destruct (String.eqb (ntype n) "update_command") eqn:E4.
  { apply String.eqb_eq in E4. rewrite E4.
    unfold parse_update_command, bind, ok in H. invert_res H. injection H as <-. reflexivity. }
  discriminate H.
Qed.

Lemma parse_command_routes_by_type_witness :
  parse_command rm_a_py = inr (RmFileCommand "rm_file" "a.py") /\
  command_type (RmFileCommand "rm_file" "a.py") ++ "_command" = ntype rm_a_py.
Proof.
  assert (H : parse_command rm_a_py = inr (RmFileCommand "rm_file" "a.py"))
    by (vm_compute; reflexivity).
  split; [exact H|]. exact (parse_command_routes_by_type _ _ H).
Defined.

Lemma parse_update_action_kind (n : node) (a : EditingAction) :
  parse_update_action n = inr a ->
  exists an, find_first_by_types (named_children n) action_types = Some an /\
    action_kind a = action_node_kind (ntype an).
Proof.
  unfold parse_update_action, bind, ok, raise.
  destruct (find_first_by_types (named_children n) action_types) as [an|]; [|discriminate].
  intros H. exists an. split; [reflexivity|]. unfold action_node_kind.
  destruct (String.eqb (ntype an) "update_delete_mos_clause"
            || String.eqb (ntype an) "update_delete_region_clause").
  { unfold parse_delete_clause, bind, ok in H. invert_res H. injection H as <-. reflexivity. }
  destruct (String.eqb (ntype an) "update_move_mos_clause"
            || String.eqb (ntype an) "update_move_region_clause").
  { unfold parse_move_clause, bind, ok in H. invert_res H. injection H as <-. reflexivity. }
  destruct (String.eqb (ntype an) "insert_clause").
  { apply parse_insert_clause_shape in H as [p ->]. reflexivity. }
  destruct (String.eqb (ntype an) "replace_mos_clause"
            || String.eqb (ntype an) "replace_region_clause").
  { unfold parse_replace_clause, bind, ok in H. invert_res H. injection H as <-. reflexivity. }
  discriminate H.
Qed.

(** A built [UPDATE] command has type [update]; its action is of the
    class selected by the first action child's type (delete, move, insert
    or replace), and it carries content exactly when the node has a
    [content_clause] child. *)
Theorem parse_update_command_shape (n : node) (c : Command) :
  parse_update_command n = inr c ->
  exists target action content an,
    c = UpdateCommand "update" target action content /\
    find_first_by_types (named_children n) action_types = Some an /\
    action_kind action = action_node_kind (ntype an) /\
    (content = None <-> find_first_by_type (children n) "content_clause" = None).
Proof.
  unfold parse_update_command, bind, ok. intros H.
  destruct (parse_update_target n) as [|target]; [discriminate|].
  destruct (parse_update_action n) as [|action] eqn:Ha; [discriminate|].
  destruct (parse_update_content n) as [|content] eqn:Hc; [discriminate|].
  injection H as <-.
  destruct (parse_update_action_kind n action Ha) as (an & Hf & Hk).
  exists target, action, content, an. repeat split; try assumption.
  - unfold parse_update_content, bind, ok in Hc. intros Hn.
    destruct (find_first_by_type (children n) "content_clause"); [|reflexivity].
    invert_res Hc. injection Hc as <-. discriminate Hn.
  - unfold parse_update_content, bind, ok in Hc. intros Hn. rewrite Hn in Hc.
    injection Hc as <-. reflexivity.
Qed.

Lemma parse_update_command_shape_witness :
  parse_update_command update_delete_foo
    = inr (UpdateCommand "update" (TSingleFile (mkSingleFile "a.py"))
             (DeleteClause (RMarker (mkMarker FUNCTION "foo" None))) None) /\
  exists target action content an,
    UpdateCommand "update" (TSingleFile (mkSingleFile "a.py"))
      (DeleteClause (RMarker (mkMarker FUNCTION "foo" None))) None
    = UpdateCommand "update" target action content /\
    find_first_by_types (named_children update_delete_foo) action_types = Some an /\
    action_kind action = action_node_kind (ntype an) /\
    (content = None <-> find_first_by_type (children update_delete_foo) "content_clause" = None).
Proof.
  assert (H : parse_update_command update_delete_foo
    = inr (UpdateCommand "update" (TSingleFile (mkSingleFile "a.py"))
             (DeleteClause (RMarker (mkMarker FUNCTION "foo" None))) None))
    by (vm_compute; reflexivity).
  split; [exact H|]. exact (parse_update_command_shape _ _ H).
Defined.

(* ------------------------------------------------------------------ *)
(** ** Where diagnostics come from, and what the facade prints *)









(* ------------------------------------------------------------------ *)
(** ** What [strip] leaves at the ends of a decoded string *)

Lemma drop_while_head (p : ascii -> bool) (l : list ascii) :
  match drop_while p l with [] => True | c :: _ => p c = false end.
Proof.
  induction l as [|c l IH]; cbn [drop_while]; [exact I|].
  destruct (p c) eqn:Hc; [exact IH | exact Hc].
Qed.

Lemma drop_while_suffix (p : ascii -> bool) (l : list ascii) :
  exists pre, l = (pre ++ drop_while p l)%list.
Proof.
  induction l as [|c l [pre IH]]; cbn [drop_while]; [exists []; reflexivity|].
  destruct (p c); [exists (c :: pre); cbn; f_equal; exact IH | exists []; reflexivity].
Qed.

Lemma str_strip_ends (set s : string) :
  (match chars (str_strip set s) with [] => True | c :: _ => ascii_in c set = false end) /\
  (match rev (chars (str_strip set s)) with [] => True | c :: _ => ascii_in c set = false end).
Proof.
  unfold str_strip. unfold chars at 1 3. unfold of_chars.
  rewrite !list_ascii_of_string_of_list_ascii, rev_involutive.
  set (p := fun c => ascii_in c set).
  set (A := drop_while p (chars s)).
  pose proof (drop_while_head p (rev A)) as HB.
  set (B := drop_while p (rev A)) in *.
  split; [|exact HB].
  destruct (drop_while_suffix p (rev A)) as [pre Hpre]. fold B in Hpre.
  pose proof (drop_while_head p (chars s)) as HA. fold A in HA.
  destruct (rev B) as [|c r] eqn:HrB; [exact I|].
  apply (f_equal (@rev ascii)) in Hpre. rewrite rev_involutive, rev_app_distr, HrB in Hpre.
  rewrite Hpre in HA. exact HA.
Qed.

(** A [raw_string] or [single_quoted_string] literal, bare or inside a
    [string] wrapper, decodes to text that neither starts nor ends with a
    quote character. *)
Theorem parse_string_no_outer_quotes (n leaf : node) (s : string) :
  string_leaf n = Some leaf ->
  (casefold (ntype leaf) = "raw_string" \/ casefold (ntype leaf) = "single_quoted_string") ->
  parse_string (Some n) = inr s ->
  (match chars s with [] => True | c :: _ => ascii_in c quote_chars = false end) /\
  (match rev (chars s) with [] => True | c :: _ => ascii_in c quote_chars = false end).
Proof.
  unfold string_leaf, parse_string, req, bind, ok. intros Hl Hk H.
  destruct (String.eqb (casefold (ntype n)) "string").
  - unfold py_index, ok in H. rewrite Hl in H. cbv zeta in H. cbn [py_decode node_text ok] in H.
    destruct Hk as [Hk|Hk]; rewrite Hk in H.
    + change (String.eqb "raw_string" "raw_string") with true in H.
      injection H as <-. apply str_strip_ends.
    + change (String.eqb "single_quoted_string" "raw_string") with false in H.
      change (String.eqb "single_quoted_string" "single_quoted_string") with true in H.
      injection H as <-. apply str_strip_ends.
  - injection Hl as <-. cbv zeta in H. cbn [py_decode node_text ok] in H.
    destruct Hk as [Hk|Hk]; rewrite Hk in H.
    + change (String.eqb "raw_string" "raw_string") with true in H.
      injection H as <-. apply str_strip_ends.
    + change (String.eqb "single_quoted_string" "raw_string") with false in H.
      change (String.eqb "single_quoted_string" "single_quoted_string") with true in H.
      injection H as <-. apply str_strip_ends.
Qed.

Lemma parse_string_no_outer_quotes_witness :
  string_leaf (string_node "'foo'") = Some (named_leaf "raw_string" "'foo'") /\
  parse_string (Some (string_node "'foo'")) = inr "foo" /\
  (match chars "foo" with [] => True | c :: _ => ascii_in c quote_chars = false end) /\
  (match rev (chars "foo") with [] => True | c :: _ => ascii_in c quote_chars = false end).
Proof.
  split; [reflexivity|].
  assert (H : parse_string (Some (string_node "'foo'")) = inr "foo") by (vm_compute; reflexivity).
  split; [exact H|].
  exact (parse_string_no_outer_quotes (string_node "'foo'") (named_leaf "raw_string" "'foo'")
           "foo" eq_refl (or_introl eq_refl) H).
Defined.

(* ------------------------------------------------------------------ *)
(** ** Quoting a path and reading it back *)

Lemma drop_while_keep (p : ascii -> bool) (l : list ascii) :
  match l with [] => True | c :: _ => p c = false end -> drop_while p l = l.
Proof. destruct l as [|c l]; [reflexivity|]. cbn. intros ->. reflexivity. Qed.

Lemma str_strip_quoted (set : string) (q : ascii) (l : list ascii) :
  ascii_in q set = true ->
  match l with [] => True | c :: _ => ascii_in c set = false end ->
  match rev l with [] => True | c :: _ => ascii_in c set = false end ->
  str_strip set (of_chars (q :: l ++ [q])) = of_chars l.
Proof.
  intros Hq Hh Ht. unfold str_strip, chars, of_chars.
  rewrite list_ascii_of_string_of_list_ascii. cbn [drop_while]. rewrite Hq.
  destruct l as [|c l'].
  - cbn. rewrite Hq. reflexivity.
  - rewrite (drop_while_keep (fun c => ascii_in c set) ((c :: l') ++ [q])%list) by exact Hh.
    rewrite rev_app_distr. cbn [rev app drop_while]. rewrite Hq.
    rewrite (drop_while_keep (fun c => ascii_in c set) (rev l' ++ [c])%list) by exact Ht.
    change (rev l' ++ [c])%list with (rev (c :: l')). rewrite rev_involutive. reflexivity.
Qed.

Lemma parse_string_raw (sn leaf : node) :
  string_leaf sn = Some leaf -> casefold (ntype leaf) = "raw_string" ->
  parse_string (Some sn) = inr (str_strip quote_chars (ntext leaf)).
Proof.
  unfold string_leaf, parse_string, req, bind, ok. intros Hl Hk.
  destruct (String.eqb (casefold (ntype sn)) "string").
  - unfold py_index, ok. rewrite Hl. cbv zeta. cbn [py_decode node_text ok].
    rewrite Hk. reflexivity.
  - injection Hl as <-. cbv zeta. cbn [py_decode node_text ok]. rewrite Hk. reflexivity.
Qed.

(** A path written between two quote characters, and neither starting
    nor ending with one, reads back unchanged: as a string literal, as the
    path of a [FILE] clause and as the target of a [TO] clause. *)
Theorem quoted_path_round_trip (sn leaf : node) (q : ascii) (p : string) :
  string_leaf sn = Some leaf ->
  casefold (ntype leaf) = "raw_string" ->
  ascii_in q quote_chars = true ->
  ntext leaf = String q (p ++ String q EmptyString) ->
  (match chars p with [] => True | c :: _ => ascii_in c quote_chars = false end) ->
  (match rev (chars p) with [] => True | c :: _ => ascii_in c quote_chars = false end) ->
  parse_string (Some sn) = inr p /\
  (forall n, ntype n = "singlefile_clause" ->
     find_first_by_type (children n) "string" = Some sn ->
     parse_singlefile_clause (Some n) = inr (mkSingleFile p)) /\
  (forall n, ntype n = "to_value_clause" ->
     find_first_by_type (children n) "string" = Some sn ->
     parse_to_value_clause (Some n) = inr p).
Proof.
  intros Hl Hk Hq Ht Hh Hr.
  assert (Hs : parse_string (Some sn) = inr p).
  { rewrite (parse_string_raw sn leaf Hl Hk), Ht.
    replace (String q (p ++ String q EmptyString)) with (of_chars (q :: chars p ++ [q])%list).
    - rewrite (str_strip_quoted quote_chars q (chars p) Hq Hh Hr).
      unfold of_chars, chars. rewrite string_of_list_ascii_of_string. reflexivity.
    - unfold of_chars, chars. cbn [string_of_list_ascii]. f_equal.
      clear. induction p as [|a p IH]; [reflexivity|]. cbn. f_equal. exact IH. }
  split; [exact Hs|]. split.
  - intros n Hn Hf. unfold parse_singlefile_clause, bind, ok.
    rewrite Hn, String.eqb_refl, Hf, Hs. reflexivity.
  - intros n Hn Hf. unfold parse_to_value_clause, bind, ok.
    rewrite Hn, String.eqb_refl, Hf. exact Hs.
Qed.

Lemma quoted_path_round_trip_witness :
  parse_string (Some (string_node "'a.py'")) = inr "a.py" /\
  (forall n, ntype n = "singlefile_clause" ->
     find_first_by_type (children n) "string" = Some (string_node "'a.py'") ->
     parse_singlefile_clause (Some n) = inr (mkSingleFile "a.py")) /\
  (forall n, ntype n = "to_value_clause" ->
     find_first_by_type (children n) "string" = Some (string_node "'a.py'") ->
     parse_to_value_clause (Some n) = inr "a.py").
Proof.
  apply (quoted_path_round_trip (string_node "'a.py'") (named_leaf "raw_string" "'a.py'")
           "'"%char "a.py"); reflexivity.
Defined.
